(** * Tracking-quality metrics of [Practice_1/code/metrics.py]

    A shallow embedding of the two scorers of the module,
    [HitsMatchingEfficiency] and [ParameterMatchingEfficiency], and the
    properties of their [fit] methods.

    Conventions of the embedding.
    - Identifiers (TrackIDs, labels) and counts are integers, [Z].
    - The rates are Python floats that the code obtains by dividing one
      count by another and stores rounded to binary64; they are embedded
      as exact rationals [Q], so a rate is the quotient of the two
      counts.  Statements about rates use the equality [==] of [Q]; they
      say which counts a rate is the quotient of.  What depends on the
      rounding is stated on the binary64 quotients of [Binary64].  The
      test of an efficiency against the threshold is made on the exact
      quotient: for a threshold within rounding of a quotient the code
      can decide otherwise.
    - The regression of scikit-learn is no part of the module: it is a
      parameter of the parameter-matching scorer, a routine that raises
      or returns a slope and an intercept.
    - The mean of an empty numpy array is NaN; [avg_efficiency_] is an
      [option Q] and [None] stands for NaN.
    - An exception ends [fit]; fallible steps return a [result]. *)

From Stdlib Require Import ZArith QArith Qabs List Bool Lia Sorted Permutation.
From Stdlib Require PrimFloat Uint63.
Import ListNotations.

Local Open Scope Z_scope.

(** ** Exceptions and the error monad *)

(** The exceptions the code can meet.  [IndexError]: a boolean mask whose
    length differs from the indexed array, or element [0] of an empty
    array.  [ValueError]: the maximum of an empty array, a regression on
    no sample, or a mask of the wrong length given to a data frame. *)
Inductive exn : Type :=
| IndexError
| ValueError.

Inductive result (A : Type) : Type :=
| Ok (a : A)
| Raise (e : exn).

Arguments Ok {A} a.
Arguments Raise {A} e.

Definition bind {A B : Type} (c : result A) (k : A -> result B) : result B :=
  match c with
  | Ok a => k a
  | Raise e => Raise e
  end.

Notation "x <- c ;; k" := (bind c (fun x => k))
  (at level 61, c at next level, right associativity).
Notation "' p <- c ;; k" := (bind c (fun x => let p := x in k))
  (at level 61, p pattern, c at next level, right associativity).

(** ** The numpy operations the module uses *)

Module Np.

(** Insertion of a value in an ascending list without repetition. *)
Fixpoint insert (x : Z) (l : list Z) : list Z :=
  match l with
  | [] => [x]
  | h :: t =>
      if x <? h then x :: l
      else if x =? h then l
      else h :: insert x t
  end.

(** [numpy.unique(a)]: the distinct values of [a], ascending. *)
Definition unique (a : list Z) : list Z := fold_right insert [] a.

(** Number of occurrences of [u] in [a]. *)
Fixpoint count (u : Z) (a : list Z) : Z :=
  match a with
  | [] => 0
  | h :: t => (if h =? u then 1 else 0) + count u t
  end.

(** [numpy.unique(a, return_counts=True)]: the distinct values and, in
    step, the number of times each occurs. *)
Definition unique_counts (a : list Z) : list Z * list Z :=
  (unique a, map (fun u => count u a) (unique a)).

(** The elements of [a] whose mask entry is set. *)
Fixpoint mask {A : Type} (a : list A) (m : list bool) : list A :=
  match a, m with
  | x :: a', b :: m' => if b then x :: mask a' m' else mask a' m'
  | _, _ => []
  end.

(** [a[m]] for a boolean array [m]: numpy refuses a mask whose length is
    not that of [a]. *)
Definition select {A : Type} (a : list A) (m : list bool) : result (list A) :=
  if (length a =? length m)%nat then Ok (mask a m) else Raise IndexError.

(** [a.max()]: refused on an empty array. *)
Definition max (a : list Z) : result Z :=
  match a with
  | [] => Raise ValueError
  | h :: t => Ok (fold_left Z.max t h)
  end.

(** [a[0]]. *)
Definition item0 {A : Type} (a : list A) : result A :=
  match a with
  | [] => Raise IndexError
  | h :: _ => Ok h
  end.

(** [a.sum()] on integers and on reals. *)
Definition sum (a : list Z) : Z := fold_right Z.add 0 a.

Definition qsum (a : list Q) : Q := fold_right Qplus 0%Q a.

(** [len(a)] as an integer. *)
Definition len {A : Type} (a : list A) : Z := Z.of_nat (length a).

(** [a.mean()]: NaN ([None]) on an empty array. *)
Definition mean (a : list Q) : option Q :=
  match a with
  | [] => None
  | _ => Some (qsum a / inject_Z (len a))%Q
  end.

(** The mask [a != -1]. *)
Definition not_noise (a : list Z) : list bool :=
  map (fun v => negb (v =? -1)) a.

End Np.

(** ** The data model *)

(** A hit of an event: the columns [TrackID], [X] and [y] of the frame. *)
Record Hit : Type := mkHit {
  TrackID : Z;
  X : Q;
  y : Q
}.

Definition Event : Type := list Hit.

(** [event.TrackID.values] *)
Definition TrackID_values (event : Event) : list Z := map TrackID event.

(** [n_tracks = (numpy.unique(event.TrackID.values) != -1).sum()] *)
Definition n_tracks (event : Event) : Z :=
  let true_tracks_id := Np.unique (TrackID_values event) in
  Np.len (filter (fun b : bool => b) (Np.not_noise true_tracks_id)).

(** ** HitsMatchingEfficiency *)

Module HitsMatchingEfficiency.

(** The fields [fit] sets. *)
Record t : Type := mk {
  efficiencies_ : list Q;
  avg_efficiency_ : option Q;
  reconstruction_efficiency_ : Q;
  ghost_rate_ : Q;
  clone_rate_ : Q
}.

(** The body of the loop for one label: the hits of the group, their
    distinct TrackIDs with counts, the efficiency and the dominant
    TrackID [unique[counts == counts.max()][0]]. *)
Definition group (true_labels labels : list Z) (label : Z) : result (Q * Z) :=
  track <- Np.select true_labels (map (fun l => l =? label) labels) ;;
  let '(unique, counts) := Np.unique_counts track in
  cmax <- Np.max counts ;;
  let eff := (1 * inject_Z cmax / inject_Z (Np.len track))%Q in
  dominant <- (u <- Np.select unique (map (fun c => c =? cmax) counts) ;; Np.item0 u) ;;
  Ok (eff, dominant).

(** The loop [for label in unique_labels], carrying the two lists it
    appends to. *)
Fixpoint loop (true_labels labels : list Z) (unique_labels : list Z)
    (efficiencies : list Q) (tracks_id : list Z) : result (list Q * list Z) :=
  match unique_labels with
  | [] => Ok (efficiencies, tracks_id)
  | label :: rest =>
      if negb (label =? -1) then
        '(eff, dominant) <- group true_labels labels label ;;
        loop true_labels labels rest (efficiencies ++ [eff]) (tracks_id ++ [dominant])
      else loop true_labels labels rest efficiencies tracks_id
  end.

(** [fit(event, labels)] of a scorer built with [eff_threshold].  The
    code selects the groups that pass the threshold twice, before the
    reconstruction efficiency and again before the clone rate. *)
Definition fit (eff_threshold : Q) (event : Event) (labels : list Z) : result t :=
  let true_labels := TrackID_values event in
  let unique_labels := Np.unique labels in
  '(efficiencies, tracks_id) <- loop true_labels labels unique_labels [] [] ;;
  let avg_efficiency := Np.mean efficiencies in
  let n_tracks := n_tracks event in
  reco_tracks_id <-
    Np.select tracks_id (map (fun e => Qle_bool eff_threshold e) efficiencies) ;;
  let '(unique, counts) :=
    Np.unique_counts (Np.mask reco_tracks_id (Np.not_noise reco_tracks_id)) in
  let reconstruction_efficiency :=
    if n_tracks >? 0 then (1 * inject_Z (Np.len unique) / inject_Z n_tracks)%Q
    else 0%Q in
  let ghost_rate :=
    if n_tracks >? 0
    then (1 * inject_Z (Np.len tracks_id
                        - Np.len (Np.mask reco_tracks_id (Np.not_noise reco_tracks_id)))%Z
            / inject_Z n_tracks)%Q
    else 0%Q in
  reco_tracks_id <-
    Np.select tracks_id (map (fun e => Qle_bool eff_threshold e) efficiencies) ;;
  let '(unique, counts) :=
    Np.unique_counts (Np.mask reco_tracks_id (Np.not_noise reco_tracks_id)) in
  let clone_rate :=
    if n_tracks >? 0
    then (inject_Z (Np.sum (map (fun c => (c - 1)%Z) counts)) / inject_Z n_tracks)%Q
    else 0%Q in
  Ok (mk efficiencies avg_efficiency reconstruction_efficiency ghost_rate clone_rate).

End HitsMatchingEfficiency.

(** ** Least squares on exact rationals

    Not the routine of scikit-learn: the ordinary least squares of [y]
    on the single column [X], with an intercept, computed on exact
    rationals; a column without variance gets the slope [0] and the mean
    of [y] as intercept, and an empty sample is refused.  It is one
    instance of the regression the parameter-matching scorer takes as a
    parameter, used to run the examples. *)

Module LeastSquares.

Definition fit (X y : list Q) : result (Q * Q) :=
  match X with
  | [] => Raise ValueError
  | _ =>
      let n := inject_Z (Np.len X) in
      let x_mean := (Np.qsum X / n)%Q in
      let y_mean := (Np.qsum y / n)%Q in
      let sxx := Np.qsum (map (fun x => ((x - x_mean) * (x - x_mean))%Q) X) in
      let sxy :=
        Np.qsum (map (fun p => ((fst p - x_mean) * (snd p - y_mean))%Q) (combine X y)) in
      let coef := if Qeq_bool sxx 0 then 0%Q else (sxy / sxx)%Q in
      Ok (coef, (y_mean - coef * x_mean)%Q)
  end.

End LeastSquares.

(** ** ParameterMatchingEfficiency *)

Module ParameterMatchingEfficiency.

(** The fields [fit] sets. *)
Record t : Type := mk {
  reconstruction_efficiency_ : Q;
  ghost_rate_ : Q;
  clone_rate_ : Q
}.

(** [event[m]] for a boolean array [m]: pandas refuses a mask whose
    length is not the number of rows. *)
Definition rows (event : Event) (m : list bool) : result Event :=
  if (length event =? length m)%nat then Ok (Np.mask event m) else Raise ValueError.

Section Regression.

(** [lr = LinearRegression(); lr.fit(X, y)] of scikit-learn, read as
    [(lr.coef_[0], lr.intercept_)]: the routine is imported, so it is a
    parameter here.  [regression X y] is [Raise e] when the routine
    raises [e] and [Ok (coef, intercept)] when it returns a slope and an
    intercept that are numbers; a run in which it returns a parameter
    that is infinite or NaN has no counterpart in this embedding. *)
Variable regression : list Q -> list Q -> result (Q * Q).

(** The regression of the hits of [track]: [(lr.coef_[0], lr.intercept_)]. *)
Definition line (track : Event) : result (Q * Q) :=
  regression (map X track) (map y track).

(** The loop over [unique_true_labels] that fills [true_params]. *)
Fixpoint true_loop (event : Event) (unique_true_labels : list Z)
    (true_params : list (Q * Q)) : result (list (Q * Q)) :=
  match unique_true_labels with
  | [] => Ok true_params
  | label :: rest =>
      if negb (label =? -1) then
        true_track <- rows event (map (fun h => TrackID h =? label) event) ;;
        p <- line true_track ;;
        true_loop event rest (true_params ++ [p])
      else true_loop event rest true_params
  end.

(** The loop over [unique_labels] that fills [params]. *)
Fixpoint reco_loop (event : Event) (labels : list Z) (unique_labels : list Z)
    (params : list (Q * Q)) : result (list (Q * Q)) :=
  match unique_labels with
  | [] => Ok params
  | label :: rest =>
      if negb (label =? -1) then
        track <- rows event (map (fun l => l =? label) labels) ;;
        p <- line track ;;
        reco_loop event labels rest (params ++ [p])
      else reco_loop event labels rest params
  end.

End Regression.

(** The test of the inner loop on a true track and a group. *)
Definition close (delta_k delta_b : Q) (one_true_param one_param : Q * Q) : bool :=
  Qle_bool (Qabs (fst one_true_param - fst one_param)) delta_k
  && Qle_bool (Qabs (snd one_true_param - snd one_param)) delta_b.

(** [a[i] = v] on an array of marks; the loops only write inside the
    array, outside nothing is written. *)
Fixpoint set_item (a : list Z) (i : nat) (v : Z) : list Z :=
  match a, i with
  | [], _ => []
  | _ :: a', O => v :: a'
  | h :: a', S i' => h :: set_item a' i' v
  end.

(** The variables the two loops update. *)
Record state : Type := mkState {
  n_matchings : Z;
  n_reconstructions : Z;
  n_ghosts : Z;
  true_used : list Z;
  used : list Z
}.

(** The inner loop [for true_id, one_true_param in enumerate(true_params)],
    from index [true_id] on. *)
Fixpoint inner (delta_k delta_b : Q) (id : nat) (one_param : Q * Q)
    (true_params : list (Q * Q)) (true_id : nat) (s : state) : state :=
  match true_params with
  | [] => s
  | one_true_param :: rest =>
      if close delta_k delta_b one_true_param one_param then
        let s1 := mkState (n_matchings s + 1) (n_reconstructions s) (n_ghosts s)
                          (true_used s) (used s) in
        let s2 :=
          if (nth true_id (true_used s1) 0 =? 0) && (nth id (used s1) 0 =? 0) then
            mkState (n_matchings s1) (n_reconstructions s1 + 1) (n_ghosts s1)
                    (set_item (true_used s1) true_id 1) (set_item (used s1) id 1)
          else s1 in
        inner delta_k delta_b id one_param rest (S true_id) s2
      else inner delta_k delta_b id one_param rest (S true_id) s
  end.

(** The outer loop [for id, one_param in enumerate(params)], from index
    [id] on. *)
Fixpoint outer (delta_k delta_b : Q) (true_params params : list (Q * Q))
    (id : nat) (s : state) : state :=
  match params with
  | [] => s
  | one_param :: rest =>
      let s0 := mkState 0 (n_reconstructions s) (n_ghosts s) (true_used s) (used s) in
      let s1 := inner delta_k delta_b id one_param true_params 0 s0 in
      let s2 :=
        if n_matchings s1 =? 0 then
          mkState (n_matchings s1) (n_reconstructions s1) (n_ghosts s1 + 1)
                  (true_used s1) (used s1)
        else s1 in
      outer delta_k delta_b true_params rest (S id) s2
  end.

(** [numpy.zeros(n)] *)
Definition zeros (n : nat) : list Z := repeat 0 n.

(** [fit(event, labels)] of a scorer built with [delta_k] and [delta_b],
    with the regression [regression]. *)
Definition fit (regression : list Q -> list Q -> result (Q * Q))
    (delta_k delta_b : Q) (event : Event) (labels : list Z) : result t :=
  let true_labels := TrackID_values event in
  let unique_true_labels := Np.unique true_labels in
  let unique_labels := Np.unique labels in
  let n_tracks := n_tracks event in
  true_params <- true_loop regression event unique_true_labels [] ;;
  params <- reco_loop regression event labels unique_labels [] ;;
  let s := outer delta_k delta_b true_params params 0
             (mkState 0 0 0 (zeros (length true_params)) (zeros (length params))) in
  if n_tracks >? 0 then
    Ok (mk (1 * inject_Z (n_reconstructions s) / inject_Z n_tracks)%Q
           (1 * inject_Z (n_ghosts s) / inject_Z n_tracks)%Q
           (1 * inject_Z (Np.len params - n_reconstructions s - n_ghosts s)%Z
              / inject_Z n_tracks)%Q)
  else Ok (mk 0%Q 0%Q 0%Q).

End ParameterMatchingEfficiency.

(** ** The quantities the hit-matching rates are made of *)

Module HitsSpec.

Import HitsMatchingEfficiency.

(** The TrackIDs of the hits that carry the label [g]. *)
Definition track_of (true_labels labels : list Z) (g : Z) : list Z :=
  Np.mask true_labels (map (fun l => l =? g) labels).

(** [d] is the most frequent value of [track] and the least of the most
    frequent ones. *)
Definition is_dominant (track : list Z) (d : Z) : Prop :=
  In d track /\
  (forall v, Np.count v track <= Np.count d track) /\
  (forall v, Np.count v track = Np.count d track -> d <= v).

(** The efficiency and the dominant TrackID of the group [g], as the
    loop body computes them. *)
Definition efficiency_of (true_labels labels : list Z) (g : Z) : Q :=
  match group true_labels labels g with
  | Ok (eff, _) => eff
  | Raise _ => 0%Q
  end.

Definition dominant_of (true_labels labels : list Z) (g : Z) : Z :=
  match group true_labels labels g with
  | Ok (_, dominant) => dominant
  | Raise _ => -1
  end.

Definition is_label (g : Z) : bool := negb (g =? -1).

(** The reconstructed groups: the distinct labels other than [-1],
    ascending. *)
Definition groups (labels : list Z) : list Z := filter is_label (Np.unique labels).

(** The groups whose efficiency reaches the threshold. *)
Definition passing (thr : Q) (event : Event) (labels : list Z) : list Z :=
  filter (fun g => Qle_bool thr (efficiency_of (TrackID_values event) labels g))
         (groups labels).

(** The passing groups whose dominant TrackID is not [-1]. *)
Definition matched (thr : Q) (event : Event) (labels : list Z) : list Z :=
  filter (fun g => is_label (dominant_of (TrackID_values event) labels g))
         (passing thr event labels).

(** The distinct dominant TrackIDs other than [-1] of the passing groups. *)
Definition reconstructed (thr : Q) (event : Event) (labels : list Z) : list Z :=
  Np.unique (map (dominant_of (TrackID_values event) labels) (matched thr event labels)).

(** The true tracks: the distinct TrackIDs other than [-1], ascending. *)
Definition true_tracks (event : Event) : list Z :=
  filter is_label (Np.unique (TrackID_values event)).

End HitsSpec.

(** ** The greedy assignment of the parameter-matching scorer, as a
    pairing of groups with true tracks *)

Module ParamSpec.

Import ParameterMatchingEfficiency.

(** The hits of the true track [g] and the hits of the group [g]. *)
Definition hits_of_track (event : Event) (g : Z) : Event :=
  Np.mask event (map (fun h => TrackID h =? g) event).

Definition hits_of_group (event : Event) (labels : list Z) (g : Z) : Event :=
  Np.mask event (map (fun l => l =? g) labels).

(** The regression returns on the hits of every true track, and on the
    hits of every true track and of every group. *)
Definition returns_on_tracks (regression : list Q -> list Q -> result (Q * Q))
    (event : Event) : Prop :=
  forall g, In g (HitsSpec.true_tracks event) ->
    exists p, line regression (hits_of_track event g) = Ok p.

Definition returns_on_groups (regression : list Q -> list Q -> result (Q * Q))
    (event : Event) (labels : list Z) : Prop :=
  forall g, In g (HitsSpec.groups labels) ->
    exists p, line regression (hits_of_group event labels g) = Ok p.

(** The row of a group: for each true track, in ascending order of
    TrackID, whether its line is within the tolerances of the line of the
    group. *)
Definition match_row (delta_k delta_b : Q) (true_params : list (Q * Q))
    (one_param : Q * Q) : list bool :=
  map (fun one_true_param => close delta_k delta_b one_true_param one_param) true_params.

Definition match_rows (delta_k delta_b : Q) (true_params params : list (Q * Q)) :
    list (list bool) :=
  map (match_row delta_k delta_b true_params) params.

Definition taken (i : nat) (used_tracks : list nat) : bool :=
  existsb (Nat.eqb i) used_tracks.

(** The first true track of the row, counted from [i], that matches and
    is not taken yet. *)
Fixpoint first_free (row : list bool) (i : nat) (used_tracks : list nat) : option nat :=
  match row with
  | [] => None
  | m :: row' =>
      if m && negb (taken i used_tracks) then Some i
      else first_free row' (S i) used_tracks
  end.

(** The pairings (group, true track), the groups taken in order from [g]:
    a group is paired with the first matching track that no earlier group
    took, and with no other. *)
Fixpoint pairings (rows : list (list bool)) (g : nat) (used_tracks : list nat) :
    list (nat * nat) :=
  match rows with
  | [] => []
  | row :: rest =>
      match first_free row 0 used_tracks with
      | Some i => (g, i) :: pairings rest (S g) (i :: used_tracks)
      | None => pairings rest (S g) used_tracks
      end
  end.

(** Whether the group of index [g] and the true track of index [i]
    match. *)
Definition matches_at (rows : list (list bool)) (g i : nat) : bool :=
  nth i (nth g rows []) false.

(** The groups no true track matches. *)
Definition ghosts (rows : list (list bool)) : list (list bool) :=
  filter (fun row => negb (existsb (fun m : bool => m) row)) rows.

(** The number of true tracks that match the group. *)
Definition matchings (row : list bool) : Z :=
  Np.len (filter (fun m : bool => m) row).

(** The array of marks [a] of the code records the set [used_tracks]:
    an entry is [0] exactly when its index is not in the set. *)
Definition marks (a : list Z) (used_tracks : list nat) : Prop :=
  forall i, (nth i a 0 =? 0) = negb (taken i used_tracks).

End ParamSpec.

(** ** The rates as the code stores them

    [1. * count / n_tracks] and [count / n_tracks] in binary64, for the
    statements that depend on the rounding of the quotients. *)

Module Binary64.

Definition of_Z (z : Z) : PrimFloat.float := PrimFloat.of_uint63 (Uint63.of_Z z).

(** [1. * count / n_tracks] *)
Definition rate (count n_tracks : Z) : PrimFloat.float :=
  PrimFloat.div (PrimFloat.mul (of_Z 1) (of_Z count)) (of_Z n_tracks).

(** The sum of the three rates the hit-matching [fit] stores, from the
    counts they are the quotients of. *)
Definition hits_rates_sum (thr : Q) (event : Event) (labels : list Z) : PrimFloat.float :=
  let n := n_tracks event in
  let groups := Np.len (HitsSpec.groups labels) in
  let matched := Np.len (HitsSpec.matched thr event labels) in
  let reconstructed := Np.len (HitsSpec.reconstructed thr event labels) in
  PrimFloat.add
    (PrimFloat.add (rate reconstructed n) (rate (groups - matched) n))
    (PrimFloat.div (of_Z (matched - reconstructed)) (of_Z n)).

(** The number of groups over [n_tracks]. *)
Definition groups_over_tracks (event : Event) (labels : list Z) : PrimFloat.float :=
  PrimFloat.div (of_Z (Np.len (HitsSpec.groups labels))) (of_Z (n_tracks event)).

End Binary64.

(** ** Statements to compare the code with *)

Module Stated.

Import HitsSpec.

(** The ghost rate as [(|R| - |D|) / n_tracks], with [R] the groups whose
    efficiency reaches the threshold and [D] the distinct dominant
    TrackIDs other than [-1] among them. *)
Definition ghost_rate (thr : Q) (event : Event) (labels : list Z) : Q :=
  (inject_Z (Np.len (passing thr event labels) - Np.len (reconstructed thr event labels))
   / inject_Z (n_tracks event))%Q.

(** A track or group on which a line is ill-defined: fewer than two
    hits, or the same [X] on every hit. *)
Definition degenerate (track : Event) : bool :=
  (length track <? 2)%nat
  || match track with
     | [] => true
     | h :: rest => forallb (fun h' => Qeq_bool (X h') (X h)) rest
     end.

End Stated.

(** ** Events used as examples *)

Module Scenario.

(** An event of which only the TrackIDs matter. *)
Definition hits (ids : list Z) : Event := map (fun i => mkHit i 0 0) ids.

Definition event : Event := hits [0; 0; 0; 1; 1; -1].

Definition labels : list Z := [5; 5; 5; 5; 6; 6].

(** Two hits of one true track, reconstructed as two groups. *)
Definition split_event : Event := hits [0; 0].

Definition split_labels : list Z := [5; 6].

(** One noise hit. *)
Definition noise_event : Event := hits [-1].

(** One true track of a single hit, reconstructed as one group. *)
Definition single_event : Event := [mkHit 0 1 2].

(** Two true tracks on the same line, a third apart, and three groups. *)
Definition lines_event : Event :=
  [mkHit 0 0 0; mkHit 0 1 1; mkHit 1 0 0; mkHit 1 1 1; mkHit 2 0 5; mkHit 2 1 7].

Definition lines_labels : list Z := [5; 5; 6; 6; 7; 7].

(** Ten true tracks of one hit and two noise hits; one group on the hit
    of track [0] and one group on each noise hit. *)
Definition tenth_event : Event := hits [0; 1; 2; 3; 4; 5; 6; 7; 8; 9; -1; -1].

Definition tenth_labels : list Z := [5; -1; -1; -1; -1; -1; -1; -1; -1; -1; 6; 7].

End Scenario.

(** ** The constructor of the hit-matching scorer *)

(** [def __init__(self, eff_threshold=0.5)]: the threshold of a scorer
    built without argument. *)
Definition default_eff_threshold : Q := 1 # 2.

(** Short names of the two scorers. *)
Module H := HitsMatchingEfficiency.
Module P := ParameterMatchingEfficiency.

(** * Properties *)

(** ** Facts about the numpy operations *)

Module NpFacts.

Lemma insert_In (x v : Z) (l : list Z) :
  In v (Np.insert x l) <-> v = x \/ In v l.
Proof.
  induction l as [|h t IH]; simpl.
  - intuition.
  - destruct (x <? h) eqn:E1; [simpl; intuition|].
    destruct (x =? h) eqn:E2.
    + apply Z.eqb_eq in E2; subst; simpl; intuition.
    + simpl; rewrite IH; intuition.
Qed.

Lemma unique_In (x : Z) (a : list Z) : In x (Np.unique a) <-> In x a.
Proof.
  induction a as [|h t IH]; simpl; [tauto|].
  rewrite insert_In, IH; intuition.
Qed.

Lemma insert_sorted (x : Z) (l : list Z) :
  StronglySorted Z.lt l -> StronglySorted Z.lt (Np.insert x l).
Proof.
  induction 1 as [|h t Hs IH Hf]; simpl.
  - repeat constructor.
  - destruct (x <? h) eqn:E1.
    + apply Z.ltb_lt in E1.
      constructor; [constructor; assumption|].
      constructor; [assumption|].
      eapply Forall_impl; [|exact Hf]; simpl; intros; lia.
    + destruct (x =? h) eqn:E2; [constructor; assumption|].
      apply Z.ltb_ge in E1; apply Z.eqb_neq in E2.
      constructor; [assumption|].
      apply Forall_forall; intros z Hz.
      apply insert_In in Hz; destruct Hz as [->|Hz]; [lia|].
      rewrite Forall_forall in Hf; auto.
Qed.

Lemma unique_sorted (a : list Z) : StronglySorted Z.lt (Np.unique a).
Proof.
  induction a as [|h t IH]; simpl; [constructor|].
  apply insert_sorted; exact IH.
Qed.

Lemma sorted_NoDup (l : list Z) : StronglySorted Z.lt l -> NoDup l.
Proof.
  induction 1 as [|h t Hs IH Hf]; constructor; [|assumption].
  intro Hin; rewrite Forall_forall in Hf; specialize (Hf _ Hin); lia.
Qed.

Lemma unique_NoDup (a : list Z) : NoDup (Np.unique a).
Proof. apply sorted_NoDup, unique_sorted. Qed.

Lemma len_nonneg {A : Type} (a : list A) : 0 <= Np.len a.
Proof. unfold Np.len; lia. Qed.

Lemma len_cons {A : Type} (x : A) (a : list A) : Np.len (x :: a) = 1 + Np.len a.
Proof. unfold Np.len; simpl length; lia. Qed.

Lemma len_app {A : Type} (a b : list A) : Np.len (a ++ b) = Np.len a + Np.len b.
Proof. unfold Np.len; rewrite length_app; lia. Qed.

Lemma count_bounds (u : Z) (a : list Z) : 0 <= Np.count u a <= Np.len a.
Proof.
  induction a as [|h t IH]; [unfold Np.len; simpl; lia|].
  rewrite len_cons; cbn [Np.count]; destruct (h =? u); lia.
Qed.

Lemma count_pos_In (u : Z) (a : list Z) : 0 < Np.count u a <-> In u a.
Proof.
  induction a as [|h t IH]; simpl; [split; [lia|tauto]|].
  pose proof (count_bounds u t) as Hb.
  destruct (h =? u) eqn:E.
  - apply Z.eqb_eq in E; split; [auto|lia].
  - apply Z.eqb_neq in E; rewrite IH; split; [auto|intros [?|?]; [contradiction|auto]].
Qed.

Lemma count_all (u : Z) (a : list Z) :
  (forall x, In x a -> x = u) -> Np.count u a = Np.len a.
Proof.
  induction a as [|h t IH]; intros Hall; [reflexivity|].
  rewrite len_cons; cbn [Np.count].
  rewrite (Hall h (or_introl eq_refl)), Z.eqb_refl, IH; [reflexivity|].
  intros x Hx; apply Hall; right; exact Hx.
Qed.

Lemma sum_map_add {A : Type} (f g : A -> Z) (l : list A) :
  Np.sum (map (fun x => f x + g x) l) = Np.sum (map f l) + Np.sum (map g l).
Proof. induction l as [|h t IH]; simpl; [reflexivity|]; unfold Np.sum in *; lia. Qed.

Lemma sum_map_zero {A : Type} (l : list A) : Np.sum (map (fun _ => 0) l) = 0.
Proof. induction l as [|h t IH]; simpl; [reflexivity|]; unfold Np.sum in *; lia. Qed.

Lemma sum_indicator_out (h : Z) (us : list Z) :
  ~ In h us -> Np.sum (map (fun u => if h =? u then 1 else 0) us) = 0.
Proof.
  induction us as [|u t IH]; intros Hn; [reflexivity|]; simpl.
  destruct (h =? u) eqn:E.
  - apply Z.eqb_eq in E; subst; exfalso; apply Hn; left; reflexivity.
  - unfold Np.sum in *; rewrite IH; [reflexivity|]; intro; apply Hn; right; assumption.
Qed.

Lemma sum_indicator_in (h : Z) (us : list Z) :
  NoDup us -> In h us -> Np.sum (map (fun u => if h =? u then 1 else 0) us) = 1.
Proof.
  induction 1 as [|u t Hnot Hnd IH]; intros Hin; [contradiction|]; simpl.
  destruct (h =? u) eqn:E.
  - apply Z.eqb_eq in E; subst.
    pose proof (sum_indicator_out u t Hnot) as Hz; unfold Np.sum in *; lia.
  - apply Z.eqb_neq in E; destruct Hin as [->|Hin]; [congruence|].
    specialize (IH Hin); unfold Np.sum in *; lia.
Qed.

(** The counts of [numpy.unique] add up to the length of the array. *)
Lemma sum_counts (a us : list Z) :
  NoDup us -> incl a us -> Np.sum (map (fun u => Np.count u a) us) = Np.len a.
Proof.
  intros Hnd; induction a as [|h t IH]; intros Hincl.
  - simpl; apply sum_map_zero.
  - rewrite len_cons; simpl Np.count.
    rewrite (sum_map_add (fun u => if h =? u then 1 else 0) (fun u => Np.count u t)).
    rewrite sum_indicator_in; [|assumption|apply Hincl; left; reflexivity].
    rewrite IH; [reflexivity|].
    intros x Hx; apply Hincl; right; exact Hx.
Qed.

Lemma sum_counts_unique (a : list Z) :
  Np.sum (snd (Np.unique_counts a)) = Np.len a.
Proof.
  simpl; apply sum_counts; [apply unique_NoDup|].
  intros x Hx; apply unique_In; exact Hx.
Qed.

Lemma sum_map_pred (l : list Z) :
  Np.sum (map (fun c => c - 1) l) = Np.sum l - Np.len l.
Proof.
  induction l as [|h t IH]; [reflexivity|].
  rewrite len_cons; cbn [map]; unfold Np.sum in *; cbn [fold_right]; lia.
Qed.

Lemma mask_map_filter {A : Type} (p : A -> bool) (a : list A) :
  Np.mask a (map p a) = filter p a.
Proof. induction a as [|h t IH]; simpl; [reflexivity|]; rewrite IH; reflexivity. Qed.

Lemma mask_map_map {A B C : Type} (f : A -> B) (e : A -> C) (q : C -> bool) (gs : list A) :
  Np.mask (map f gs) (map q (map e gs)) = map f (filter (fun g => q (e g)) gs).
Proof.
  induction gs as [|h t IH]; simpl; [reflexivity|].
  rewrite IH; destruct (q (e h)); reflexivity.
Qed.

Lemma mask_In {A : Type} (x : A) (a : list A) (m : list bool) :
  In x (Np.mask a m) -> In x a.
Proof.
  revert m; induction a as [|h t IH]; intros [|b m]; simpl; try tauto.
  destruct b; simpl; intros H; [destruct H; [auto|]|]; right; eapply IH; eassumption.
Qed.

Lemma select_Ok {A : Type} (a r : list A) (m : list bool) :
  Np.select a m = Ok r -> length a = length m /\ r = Np.mask a m.
Proof.
  unfold Np.select; destruct (length a =? length m)%nat eqn:E; [|discriminate].
  apply Nat.eqb_eq in E; intros [= <-]; auto.
Qed.

Lemma select_same {A : Type} (a : list A) (m : list bool) :
  length a = length m -> Np.select a m = Ok (Np.mask a m).
Proof. intros H; unfold Np.select; rewrite H, Nat.eqb_refl; reflexivity. Qed.

Lemma fold_max_spec (t : list Z) (h : Z) :
  In (fold_left Z.max t h) (h :: t) /\
  (forall x, In x (h :: t) -> x <= fold_left Z.max t h).
Proof.
  revert h; induction t as [|k t IH]; intros h; simpl.
  - split; [auto|intros x [->|[]]; lia].
  - destruct (IH (Z.max h k)) as [Hin Hle]; split.
    + destruct Hin as [Hin|Hin]; [|auto].
      rewrite <- Hin; destruct (Z.max_spec h k) as [[_ ->]|[_ ->]]; auto.
    + intros x Hx.
      assert (Z.max h k <= fold_left Z.max t (Z.max h k)) by (apply Hle; left; reflexivity).
      destruct Hx as [->|[->|Hx]]; [lia|lia|apply Hle; right; exact Hx].
Qed.

Lemma max_Ok (a : list Z) (m : Z) :
  Np.max a = Ok m -> In m a /\ (forall x, In x a -> x <= m).
Proof.
  destruct a as [|h t]; simpl; [discriminate|].
  intros [= <-]; apply fold_max_spec.
Qed.

Lemma max_nonempty (a : list Z) : a <> [] -> exists m, Np.max a = Ok m.
Proof. destruct a as [|h t]; [congruence|]; intros _; simpl; eauto. Qed.

(** In an ascending list the first element that passes a test is the
    least one that does. *)
Lemma sorted_filter_head (p : Z -> bool) (l : list Z) (x : Z) (r : list Z) :
  StronglySorted Z.lt l -> filter p l = x :: r ->
  In x l /\ p x = true /\ (forall t, In t l -> p t = true -> x <= t).
Proof.
  induction 1 as [|h t Hs IH Hf]; simpl; [discriminate|].
  destruct (p h) eqn:E.
  - intros [= <- <-]; split; [auto|split; [assumption|]].
    intros z [<-|Hz] _; [lia|].
    rewrite Forall_forall in Hf; specialize (Hf _ Hz); lia.
  - intros Hfl; destruct (IH Hfl) as (Hin & Hp & Hmin).
    split; [auto|split; [assumption|]].
    intros z [<-|Hz] Hpz; [congruence|auto].
Qed.

End NpFacts.

(** ** Facts about rates *)

Module RateFacts.

Lemma rate_nonneg (a n : Z) :
  0 < n -> 0 <= a -> (0 <= 1 * inject_Z a / inject_Z n)%Q.
Proof.
  intros Hn Ha; rewrite Qmult_1_l.
  apply Qle_shift_div_l.
  - change 0%Q with (inject_Z 0); rewrite <- Zlt_Qlt; exact Hn.
  - rewrite Qmult_0_l; change 0%Q with (inject_Z 0); rewrite <- Zle_Qle; exact Ha.
Qed.

Lemma rate_le_1 (a n : Z) :
  0 < n -> a <= n -> (1 * inject_Z a / inject_Z n <= 1)%Q.
Proof.
  intros Hn Ha; rewrite Qmult_1_l.
  apply Qle_shift_div_r.
  - change 0%Q with (inject_Z 0); rewrite <- Zlt_Qlt; exact Hn.
  - rewrite Qmult_1_l, <- Zle_Qle; exact Ha.
Qed.

Lemma quot_nonneg (a n : Z) :
  0 < n -> 0 <= a -> (0 <= inject_Z a / inject_Z n)%Q.
Proof.
  intros Hn Ha; apply Qle_shift_div_l.
  - change 0%Q with (inject_Z 0); rewrite <- Zlt_Qlt; exact Hn.
  - rewrite Qmult_0_l; change 0%Q with (inject_Z 0); rewrite <- Zle_Qle; exact Ha.
Qed.

Lemma rate_self (n : Z) : 0 < n -> (1 * inject_Z n / inject_Z n == 1)%Q.
Proof.
  intros Hn; rewrite Qmult_1_l; apply Qmult_inv_r.
  change 0%Q with (inject_Z 0); rewrite inject_Z_injective; lia.
Qed.

End RateFacts.

(** ** The hit-matching scorer *)

Module HitsFacts.

Import HitsMatchingEfficiency HitsSpec NpFacts.

Lemma mask_nonempty {A : Type} (a : list A) (m : list bool) :
  length a = length m -> In true m -> Np.mask a m <> [].
Proof.
  revert m; induction a as [|h t IH]; intros [|b m] Hlen Hin; simpl in *;
    try discriminate; try contradiction.
  destruct b; [discriminate|].
  destruct Hin as [Hin|Hin]; [discriminate|].
  apply IH; [lia|exact Hin].
Qed.

Lemma group_Ok (true_labels labels : list Z) (g : Z) (eff : Q) (d : Z) :
  group true_labels labels g = Ok (eff, d) ->
  length true_labels = length labels /\
  track_of true_labels labels g <> [] /\
  is_dominant (track_of true_labels labels g) d /\
  eff = (1 * inject_Z (Np.count d (track_of true_labels labels g))
         / inject_Z (Np.len (track_of true_labels labels g)))%Q.
Proof.
  unfold group, track_of.
  destruct (Np.select true_labels (map (fun l => l =? g) labels)) as [track|] eqn:Hsel;
    [|discriminate].
  apply select_Ok in Hsel; destruct Hsel as [Hlen ->].
  rewrite length_map in Hlen.
  set (track := Np.mask true_labels (map (fun l => l =? g) labels)).
  cbn [bind Np.unique_counts].
  destruct (Np.max (map (fun u => Np.count u track) (Np.unique track))) as [cmax|] eqn:Hmax;
    [|discriminate].
  cbn [bind].
  rewrite select_same by (rewrite !length_map; reflexivity).
  cbn [bind].
  rewrite (map_map (fun u => Np.count u track) (fun c => c =? cmax)), mask_map_filter.
  destruct (filter (fun u => Np.count u track =? cmax) (Np.unique track)) as [|d' r] eqn:Hf;
    [discriminate|].
  cbn [Np.item0 bind]; intros [= <- <-].
  apply max_Ok in Hmax; destruct Hmax as [Hin Hle].
  destruct (sorted_filter_head _ _ _ _ (unique_sorted track) Hf) as (Hd & Hpd & Hmin).
  apply Z.eqb_eq in Hpd; apply (proj1 (unique_In _ _)) in Hd.
  assert (Hall : forall v, Np.count v track <= cmax).
  { intros v; destruct (in_dec Z.eq_dec v track) as [Hv|Hv].
    - apply Hle, in_map_iff; exists v; split; [reflexivity|apply unique_In; exact Hv].
    - assert (~ 0 < Np.count v track) by (rewrite count_pos_In; exact Hv).
      apply (proj2 (count_pos_In _ _)) in Hd; lia. }
  split; [exact Hlen|]; split; [intro He; rewrite He in Hd; exact Hd|].
  split; [|rewrite Hpd; reflexivity].
  split; [exact Hd|]; split; [rewrite Hpd; exact Hall|].
  intros v Hv; apply Hmin.
  - apply unique_In, count_pos_In; rewrite Hv; apply count_pos_In; exact Hd.
  - apply Z.eqb_eq; lia.
Qed.

Lemma group_total (true_labels labels : list Z) (g : Z) :
  length true_labels = length labels -> In g labels ->
  exists eff d, group true_labels labels g = Ok (eff, d).
Proof.
  intros Hlen Hg; unfold group.
  rewrite select_same by (rewrite length_map; exact Hlen).
  set (track := Np.mask true_labels (map (fun l => l =? g) labels)).
  cbn [bind Np.unique_counts].
  assert (Hne : track <> []).
  { apply mask_nonempty; [rewrite length_map; exact Hlen|].
    apply in_map_iff; exists g; split; [apply Z.eqb_refl|exact Hg]. }
  assert (Hu : map (fun u => Np.count u track) (Np.unique track) <> []).
  { destruct track as [|x track'] eqn:Et; [congruence|].
    assert (Hx : In x (Np.unique (x :: track'))) by (apply unique_In; left; reflexivity).
    intro He; apply map_eq_nil in He; rewrite He in Hx; exact Hx. }
  destruct (max_nonempty _ Hu) as [cmax Hmax]; rewrite Hmax; cbn [bind].
  rewrite select_same by (rewrite !length_map; reflexivity).
  cbn [bind].
  rewrite (map_map (fun u => Np.count u track) (fun c => c =? cmax)), mask_map_filter.
  apply max_Ok in Hmax; destruct Hmax as [Hin _].
  apply in_map_iff in Hin; destruct Hin as (u & Hu1 & Hu2).
  assert (Hf : In u (filter (fun u => Np.count u track =? cmax) (Np.unique track))).
  { apply filter_In; split; [exact Hu2|apply Z.eqb_eq; exact Hu1]. }
  destruct (filter (fun u => Np.count u track =? cmax) (Np.unique track)) as [|d r];
    [contradiction|].
  cbn [Np.item0 bind]; eauto.
Qed.

Lemma efficiency_of_Ok (true_labels labels : list Z) (g : Z) (eff : Q) (d : Z) :
  group true_labels labels g = Ok (eff, d) ->
  efficiency_of true_labels labels g = eff /\ dominant_of true_labels labels g = d.
Proof. intros H; unfold efficiency_of, dominant_of; rewrite H; auto. Qed.

(** What the loop returns, when it returns. *)
Lemma loop_Ok (true_labels labels ul : list Z) (accE es : list Q) (accT ts : list Z) :
  loop true_labels labels ul accE accT = Ok (es, ts) ->
  es = accE ++ map (efficiency_of true_labels labels) (filter is_label ul) /\
  ts = accT ++ map (dominant_of true_labels labels) (filter is_label ul) /\
  (forall g, In g (filter is_label ul) ->
     exists eff d, group true_labels labels g = Ok (eff, d)).
Proof.
  revert accE accT; induction ul as [|label rest IH]; intros accE accT; cbn [loop filter].
  - intros [= <- <-]; rewrite !app_nil_r; repeat split; intros g [].
  - change (negb (label =? -1)) with (is_label label); destruct (is_label label).
    + destruct (group true_labels labels label) as [[eff d]|] eqn:Hg; [|discriminate].
      cbn [bind]; intros Hl; apply IH in Hl; destruct Hl as (-> & -> & Hall).
      destruct (efficiency_of_Ok _ _ _ _ _ Hg) as [He Hd].
      cbn [map]; rewrite He, Hd, <- !app_assoc; repeat split.
      intros g [<-|Hin]; [eauto|auto].
    + apply IH.
Qed.

Lemma loop_total (true_labels labels ul : list Z) (accE : list Q) (accT : list Z) :
  length true_labels = length labels -> incl ul labels ->
  exists es ts, loop true_labels labels ul accE accT = Ok (es, ts).
Proof.
  intros Hlen; revert accE accT; induction ul as [|label rest IH];
    intros accE accT Hincl; cbn [loop]; [eauto|].
  assert (Hrest : incl rest labels) by (intros x Hx; apply Hincl; right; exact Hx).
  destruct (negb (label =? -1)); [|apply IH; exact Hrest].
  destruct (group_total true_labels labels label Hlen) as (eff & d & Hg);
    [apply Hincl; left; reflexivity|].
  rewrite Hg; cbn [bind]; apply IH; exact Hrest.
Qed.

Lemma len_map {A B : Type} (f : A -> B) (l : list A) : Np.len (map f l) = Np.len l.
Proof. unfold Np.len; rewrite length_map; reflexivity. Qed.

(** The closed form of the fields [fit] sets, when it returns. *)
Lemma hits_fit_Ok (thr : Q) (event : Event) (labels : list Z) (r : t) :
  fit thr event labels = Ok r ->
  r = mk (map (efficiency_of (TrackID_values event) labels) (groups labels))
         (Np.mean (map (efficiency_of (TrackID_values event) labels) (groups labels)))
         (if n_tracks event >? 0
          then (1 * inject_Z (Np.len (reconstructed thr event labels))
                / inject_Z (n_tracks event))%Q
          else 0%Q)
         (if n_tracks event >? 0
          then (1 * inject_Z (Np.len (groups labels) - Np.len (matched thr event labels))
                / inject_Z (n_tracks event))%Q
          else 0%Q)
         (if n_tracks event >? 0
          then (inject_Z (Np.len (matched thr event labels)
                          - Np.len (reconstructed thr event labels))
                / inject_Z (n_tracks event))%Q
          else 0%Q) /\
  (forall g, In g (groups labels) ->
     exists eff d, group (TrackID_values event) labels g = Ok (eff, d)).
Proof.
  unfold fit.
  destruct (loop (TrackID_values event) labels (Np.unique labels) [] [])
    as [[es ts]|] eqn:Hloop; [|discriminate].
  apply loop_Ok in Hloop; cbn [app] in Hloop; destruct Hloop as (-> & -> & Hall).
  fold (groups labels) in *.
  cbn [bind].
  rewrite select_same by (rewrite !length_map; reflexivity).
  cbn [bind Np.unique_counts].
  rewrite mask_map_map.
  unfold Np.not_noise; rewrite mask_map_map.
  fold (passing thr event labels).
  change (filter (fun g => negb (dominant_of (TrackID_values event) labels g =? -1))
                 (passing thr event labels)) with (matched thr event labels).
  fold (reconstructed thr event labels).
  rewrite sum_map_pred.
  pose proof (sum_counts_unique
                (map (dominant_of (TrackID_values event) labels)
                     (matched thr event labels))) as Hs.
  cbn [snd Np.unique_counts] in Hs; fold (reconstructed thr event labels) in Hs.
  rewrite Hs, !len_map.
  intros [= <-]; split; [reflexivity|exact Hall].
Qed.

(** [fit] returns when the labels are aligned with the hits. *)
Lemma hits_fit_total (thr : Q) (event : Event) (labels : list Z) :
  length labels = length event -> exists r, fit thr event labels = Ok r.
Proof.
  intros Hlen; unfold fit.
  destruct (loop_total (TrackID_values event) labels (Np.unique labels) [] [])
    as (es & ts & Hloop).
  - unfold TrackID_values; rewrite length_map; symmetry; exact Hlen.
  - intros x Hx; apply unique_In; exact Hx.
  - rewrite Hloop; cbn [bind].
    apply loop_Ok in Hloop; destruct Hloop as (-> & -> & _).
    cbn [app]; rewrite select_same by (rewrite !length_map; reflexivity).
    cbn [bind Np.unique_counts]; eauto.
Qed.

Lemma insert_length (x : Z) (l : list Z) :
  (length (Np.insert x l) <= S (length l))%nat.
Proof.
  induction l as [|h t IH]; simpl; [lia|].
  destruct (x <? h); [simpl; lia|].
  destruct (x =? h); simpl; lia.
Qed.

Lemma unique_length (a : list Z) : (length (Np.unique a) <= length a)%nat.
Proof.
  induction a as [|h t IH]; simpl; [lia|].
  pose proof (insert_length h (Np.unique t)); lia.
Qed.

Lemma n_tracks_eq (event : Event) :
  n_tracks event = Np.len (filter is_label (Np.unique (TrackID_values event))).
Proof.
  unfold n_tracks, Np.not_noise, Np.len; f_equal.
  induction (Np.unique (TrackID_values event)) as [|h t IH]; simpl; [reflexivity|].
  unfold is_label at 1; destruct (negb (h =? -1)); simpl; rewrite IH; reflexivity.
Qed.

Lemma matched_le_groups (thr : Q) (event : Event) (labels : list Z) :
  Np.len (matched thr event labels) <= Np.len (groups labels).
Proof.
  unfold matched, passing, Np.len.
  pose proof (filter_length_le
    (fun g => is_label (dominant_of (TrackID_values event) labels g))
    (filter (fun g => Qle_bool thr (efficiency_of (TrackID_values event) labels g))
            (groups labels))).
  pose proof (filter_length_le
    (fun g => Qle_bool thr (efficiency_of (TrackID_values event) labels g))
    (groups labels)).
  lia.
Qed.

Lemma reconstructed_le_matched (thr : Q) (event : Event) (labels : list Z) :
  Np.len (reconstructed thr event labels) <= Np.len (matched thr event labels).
Proof.
  unfold reconstructed, Np.len.
  pose proof (unique_length
    (map (dominant_of (TrackID_values event) labels) (matched thr event labels))) as H.
  rewrite length_map in H; lia.
Qed.

(** A reconstructed TrackID is a TrackID of the event. *)
Lemma reconstructed_le_n_tracks (thr : Q) (event : Event) (labels : list Z) :
  (forall g, In g (groups labels) ->
     exists eff d, group (TrackID_values event) labels g = Ok (eff, d)) ->
  Np.len (reconstructed thr event labels) <= n_tracks event.
Proof.
  intros Hall; rewrite n_tracks_eq; unfold Np.len; apply inj_le.
  apply NoDup_incl_length; [apply unique_NoDup|].
  intros x Hx; unfold reconstructed in Hx.
  apply (proj1 (unique_In _ _)) in Hx.
  apply in_map_iff in Hx; destruct Hx as (g & <- & Hg).
  unfold matched in Hg; apply filter_In in Hg; destruct Hg as [Hg Hlab].
  unfold passing in Hg; apply filter_In in Hg; destruct Hg as [Hg _].
  destruct (Hall g Hg) as (eff & d & Hgrp).
  destruct (efficiency_of_Ok _ _ _ _ _ Hgrp) as [_ Hd].
  apply group_Ok in Hgrp; destruct Hgrp as (_ & _ & (Hin & _) & _).
  apply filter_In; split; [|exact Hlab].
  rewrite Hd; apply unique_In; eapply mask_In; exact Hin.
Qed.

(** The efficiency of a group lies between 0 and 1. *)
Lemma group_efficiency_bounds (true_labels labels : list Z) (g : Z) (eff : Q) (d : Z) :
  group true_labels labels g = Ok (eff, d) -> (0 <= eff /\ eff <= 1)%Q.
Proof.
  intros H; apply group_Ok in H; destruct H as (_ & Hne & (Hin & _) & ->).
  pose proof (count_bounds d (track_of true_labels labels g)) as Hb.
  apply (proj2 (count_pos_In _ _)) in Hin.
  split; [apply RateFacts.rate_nonneg|apply RateFacts.rate_le_1]; lia.
Qed.

Lemma filter_sorted (p : Z -> bool) (l : list Z) :
  StronglySorted Z.lt l -> StronglySorted Z.lt (filter p l).
Proof.
  induction 1 as [|h t Hs IH Hf]; cbn [filter]; [constructor|].
  destruct (p h); [|exact IH].
  constructor; [exact IH|].
  apply Forall_forall; intros x Hx; apply filter_In in Hx; destruct Hx as [Hx _].
  rewrite Forall_forall in Hf; auto.
Qed.

Lemma groups_sorted (labels : list Z) : StronglySorted Z.lt (groups labels).
Proof. apply filter_sorted, unique_sorted. Qed.

Lemma true_tracks_sorted (event : Event) : StronglySorted Z.lt (true_tracks event).
Proof. apply filter_sorted, unique_sorted. Qed.

Lemma groups_In (labels : list Z) (g : Z) :
  In g (groups labels) <-> In g labels /\ g <> -1.
Proof.
  unfold groups; rewrite filter_In, unique_In; unfold is_label.
  rewrite negb_true_iff, Z.eqb_neq; tauto.
Qed.

(** Without a group the loop selects nothing. *)
Lemma loop_no_group (true_labels labels ul : list Z) (accE : list Q) (accT : list Z) :
  filter is_label ul = [] -> loop true_labels labels ul accE accT = Ok (accE, accT).
Proof.
  induction ul as [|label rest IH]; cbn [loop filter]; [reflexivity|].
  change (negb (label =? -1)) with (is_label label); destruct (is_label label);
    [discriminate|exact IH].
Qed.

(** With a group and labels of another length than the event, the first
    selection of hits fails. *)
Lemma loop_misaligned (true_labels labels ul : list Z) (accE : list Q) (accT : list Z) :
  length true_labels <> length labels -> filter is_label ul <> [] ->
  loop true_labels labels ul accE accT = Raise IndexError.
Proof.
  intros Hlen; induction ul as [|label rest IH]; cbn [loop filter]; [congruence|].
  change (negb (label =? -1)) with (is_label label); destruct (is_label label);
    [intros _|exact IH].
  unfold group, Np.select; rewrite length_map.
  destruct (length true_labels =? length labels)%nat eqn:E;
    [apply Nat.eqb_eq in E; contradiction|reflexivity].
Qed.

Lemma hits_fit_no_group (thr : Q) (event : Event) (labels : list Z) :
  groups labels = [] -> exists r, fit thr event labels = Ok r.
Proof.
  intros Hg; unfold fit; rewrite loop_no_group by exact Hg.
  cbn [bind map]; unfold Np.select; cbn [length Nat.eqb bind Np.mask Np.unique_counts].
  eauto.
Qed.

Lemma hits_fit_misaligned (thr : Q) (event : Event) (labels : list Z) :
  length labels <> length event -> groups labels <> [] ->
  fit thr event labels = Raise IndexError.
Proof.
  intros Hlen Hg; unfold fit; rewrite loop_misaligned; [reflexivity| |exact Hg].
  unfold TrackID_values; rewrite length_map; congruence.
Qed.

Lemma Forall2_map_dominant (true_labels labels gs : list Z) :
  (forall g, In g gs -> exists eff d, group true_labels labels g = Ok (eff, d)) ->
  Forall2 (fun g d => is_dominant (track_of true_labels labels g) d)
          gs (map (dominant_of true_labels labels) gs).
Proof.
  induction gs as [|g gs IH]; intros Hall; cbn [map]; constructor.
  - destruct (Hall g (or_introl eq_refl)) as (eff & d & Hg).
    destruct (efficiency_of_Ok _ _ _ _ _ Hg) as [_ ->].
    apply group_Ok in Hg; tauto.
  - apply IH; intros g' Hg'; apply Hall; right; exact Hg'.
Qed.

End HitsFacts.

(** ** The parameter-matching scorer *)

Module ParamFacts.

Import ParameterMatchingEfficiency ParamSpec NpFacts.

Lemma set_item_length (a : list Z) (i : nat) (v : Z) :
  length (set_item a i v) = length a.
Proof.
  revert i; induction a as [|h t IH]; intros [|i]; simpl; try reflexivity.
  rewrite IH; reflexivity.
Qed.

Lemma nth_set_item_same (a : list Z) (i : nat) (v : Z) :
  (i < length a)%nat -> nth i (set_item a i v) 0 = v.
Proof.
  revert i; induction a as [|h t IH]; intros [|i] Hi; simpl in *; try lia.
  apply IH; lia.
Qed.

Lemma nth_set_item_other (a : list Z) (i j : nat) (v : Z) :
  i <> j -> nth j (set_item a i v) 0 = nth j a 0.
Proof.
  revert i j; induction a as [|h t IH]; intros [|i] [|j] Hij; simpl; try reflexivity;
    try congruence.
  apply IH; congruence.
Qed.

Lemma marks_zeros (n : nat) : marks (zeros n) [].
Proof. intros i; unfold zeros; rewrite nth_repeat; reflexivity. Qed.

Lemma marks_set_item (a : list Z) (used_tracks : list nat) (i : nat) :
  marks a used_tracks -> (i < length a)%nat ->
  marks (set_item a i 1) (i :: used_tracks).
Proof.
  intros Hm Hi j; unfold taken; cbn [existsb].
  destruct (Nat.eqb j i) eqn:E.
  - apply Nat.eqb_eq in E; subst; rewrite nth_set_item_same by exact Hi; reflexivity.
  - apply Nat.eqb_neq in E; rewrite nth_set_item_other by congruence; apply Hm.
Qed.

Lemma matchings_cons (m : bool) (row : list bool) :
  matchings (m :: row) = (if m then 1 else 0) + matchings row.
Proof. unfold matchings; cbn [filter]; destruct m; [rewrite len_cons|]; lia. Qed.

Lemma matchings_zero (row : list bool) :
  (matchings row =? 0) = negb (existsb (fun m : bool => m) row).
Proof.
  induction row as [|m row IH]; [reflexivity|].
  rewrite matchings_cons; cbn [existsb].
  pose proof (len_nonneg (filter (fun m : bool => m) row)) as Hn; fold (matchings row) in Hn.
  destruct m; cbn [orb negb]; [apply Z.eqb_neq; lia|exact IH].
Qed.

Lemma first_free_Some (row : list bool) (k : nat) (used_tracks : list nat) (i : nat) :
  first_free row k used_tracks = Some i ->
  (k <= i < k + length row)%nat /\ taken i used_tracks = false /\
  existsb (fun m : bool => m) row = true.
Proof.
  revert k; induction row as [|m row IH]; intros k; cbn [first_free]; [discriminate|].
  destruct (m && negb (taken k used_tracks)) eqn:E.
  - intros [= <-]; apply andb_true_iff in E; destruct E as [-> E].
    apply negb_true_iff in E; cbn [length existsb orb]; repeat split; [lia|lia|exact E].
  - intros H; apply IH in H; destruct H as (Hi & Ht & He).
    cbn [length existsb]; rewrite He, orb_true_r; repeat split; [lia|lia|exact Ht].
Qed.

Lemma taken_In (i : nat) (used_tracks : list nat) :
  taken i used_tracks = true <-> In i used_tracks.
Proof.
  unfold taken; rewrite existsb_exists; split.
  - intros (x & Hx & He); apply Nat.eqb_eq in He; subst; exact Hx.
  - intros Hi; exists i; split; [exact Hi|apply Nat.eqb_refl].
Qed.

(** The track [first_free] finds matches, and every matching track before
    it is taken. *)
Lemma first_free_first (row : list bool) (k : nat) (used_tracks : list nat) (i : nat) :
  first_free row k used_tracks = Some i ->
  nth (i - k) row false = true /\
  (forall j, (j < i - k)%nat -> nth j row false = true ->
             taken (k + j) used_tracks = true).
Proof.
  revert k; induction row as [|m row IH]; intros k; cbn [first_free]; [discriminate|].
  destruct (m && negb (taken k used_tracks)) eqn:E.
  - intros [= <-]; apply andb_true_iff in E; destruct E as [-> _].
    rewrite Nat.sub_diag; split; [reflexivity|intros j Hj; lia].
  - intros H; pose proof (first_free_Some _ _ _ _ H) as (Hi & _ & _).
    apply IH in H; destruct H as [Hn Hmin].
    replace (i - k)%nat with (S (i - S k)) by lia; split; [exact Hn|].
    intros [|j] Hj Hm; cbn [nth] in Hm.
    + subst m; rewrite Nat.add_0_r.
      destruct (taken k used_tracks); [reflexivity|discriminate E].
    + replace (k + S j)%nat with (S k + j)%nat by lia; apply Hmin; [lia|exact Hm].
Qed.

(** Without a free matching track, every matching track is taken. *)
Lemma first_free_None (row : list bool) (k : nat) (used_tracks : list nat) :
  first_free row k used_tracks = None ->
  forall j, nth j row false = true -> taken (k + j) used_tracks = true.
Proof.
  revert k; induction row as [|m row IH]; intros k; cbn [first_free].
  - intros _ [|j]; discriminate.
  - destruct (m && negb (taken k used_tracks)) eqn:E; [discriminate|].
    intros H [|j] Hm; cbn [nth] in Hm.
    + subst m; rewrite Nat.add_0_r.
      destruct (taken k used_tracks); [reflexivity|discriminate E].
    + replace (k + S j)%nat with (S k + j)%nat by lia; apply (IH _ H); exact Hm.
Qed.

(** The pairing: every pair matches, no group and no true track is paired
    twice, and a group that matches a true track is paired with that
    track or an earlier one unless an earlier group took the track. *)
Lemma pairings_spec (rows : list (list bool)) (g0 : nat) (used_tracks : list nat) :
  (forall g i, In (g, i) (pairings rows g0 used_tracks) ->
     (g0 <= g)%nat /\ matches_at rows (g - g0) i = true /\ ~ In i used_tracks) /\
  NoDup (map fst (pairings rows g0 used_tracks)) /\
  NoDup (map snd (pairings rows g0 used_tracks)) /\
  (forall k j, matches_at rows k j = true ->
     In j used_tracks \/
     (exists g', (g' < g0 + k)%nat /\ In (g', j) (pairings rows g0 used_tracks)) \/
     (exists i, (i <= j)%nat /\ In ((g0 + k)%nat, i) (pairings rows g0 used_tracks))).
Proof.
  revert g0 used_tracks; induction rows as [|row rest IH]; intros g0 used_tracks;
    cbn [pairings].
  - split; [intros g i []|]; split; [constructor|]; split; [constructor|].
    intros k j Hm; unfold matches_at in Hm; destruct k, j; discriminate.
  - destruct (first_free row 0 used_tracks) as [i0|] eqn:Hf.
    + destruct (IH (S g0) (i0 :: used_tracks)) as (Hs & Hfst & Hsnd & Hgr).
      pose proof (first_free_Some _ _ _ _ Hf) as (_ & Ht & _).
      pose proof (first_free_first _ _ _ _ Hf) as [Hn Hmin].
      rewrite Nat.sub_0_r in Hn, Hmin.
      assert (Hnot : ~ In i0 used_tracks)
        by (rewrite <- taken_In; congruence).
      split; [|split; [|split]].
      * intros g i [[= <- <-]|Hin].
        -- rewrite Nat.sub_diag; auto.
        -- destruct (Hs g i Hin) as (Hg & Hm & Hu).
           split; [lia|]; split; [|intro; apply Hu; right; assumption].
           replace (g - g0)%nat with (S (g - S g0)) by lia; exact Hm.
      * cbn [map fst]; constructor; [|exact Hfst].
        intros Hin; apply in_map_iff in Hin; destruct Hin as ([g i] & Hg & Hin).
        cbn [fst] in Hg; subst g; destruct (Hs g0 i Hin) as (Hle & _); lia.
      * cbn [map snd]; constructor; [|exact Hsnd].
        intros Hin; apply in_map_iff in Hin; destruct Hin as ([g i] & Hi & Hin).
        cbn [snd] in Hi; subst i; destruct (Hs g i0 Hin) as (_ & _ & Hu).
        apply Hu; left; reflexivity.
      * intros [|k] j Hm.
        -- unfold matches_at in Hm; cbn [nth] in Hm.
           destruct (Nat.lt_ge_cases j i0) as [Hlt|Hge].
           ++ left; apply taken_In; apply (Hmin j Hlt Hm).
           ++ right; right; exists i0; split; [exact Hge|].
              rewrite Nat.add_0_r; left; reflexivity.
        -- destruct (Hgr k j Hm) as [[<-|Hu]|[(g' & Hg' & Hin)|(i & Hi & Hin)]].
           ++ right; left; exists g0; split; [lia|left; reflexivity].
           ++ left; exact Hu.
           ++ right; left; exists g'; split; [lia|right; exact Hin].
           ++ right; right; exists i; split; [exact Hi|].
              replace (g0 + S k)%nat with (S g0 + k)%nat by lia; right; exact Hin.
    + destruct (IH (S g0) used_tracks) as (Hs & Hfst & Hsnd & Hgr).
      split; [|split; [exact Hfst|split; [exact Hsnd|]]].
      * intros g i Hin; destruct (Hs g i Hin) as (Hg & Hm & Hu).
        split; [lia|]; split; [|exact Hu].
        replace (g - g0)%nat with (S (g - S g0)) by lia; exact Hm.
      * intros [|k] j Hm.
        -- left; apply taken_In; apply (first_free_None _ _ _ Hf j); exact Hm.
        -- destruct (Hgr k j Hm) as [Hu|[(g' & Hg' & Hin)|(i & Hi & Hin)]].
           ++ left; exact Hu.
           ++ right; left; exists g'; split; [lia|exact Hin].
           ++ right; right; exists i; split; [exact Hi|].
              replace (g0 + S k)%nat with (S g0 + k)%nat by lia; exact Hin.
Qed.

Lemma matches_at_close (dk db : Q) (tps ps : list (Q * Q)) (g i : nat)
    (t p : Q * Q) :
  nth_error ps g = Some p -> nth_error tps i = Some t ->
  matches_at (match_rows dk db tps ps) g i = close dk db t p.
Proof.
  intros Hp Ht; unfold matches_at, match_rows.
  rewrite (nth_error_nth _ _ _ (map_nth_error (match_row dk db tps) _ _ Hp)).
  unfold match_row.
  apply (nth_error_nth _ _ _
           (map_nth_error (fun one_true_param => close dk db one_true_param p) _ _ Ht)).
Qed.

(** The inner loop on a group that is already paired only counts the
    matchings. *)
Lemma inner_used (dk db : Q) (id : nat) (p : Q * Q) (tps : list (Q * Q))
    (tid : nat) (s : state) :
  nth id (used s) 0 <> 0 ->
  inner dk db id p tps tid s =
  mkState (n_matchings s + matchings (match_row dk db tps p))
          (n_reconstructions s) (n_ghosts s) (true_used s) (used s).
Proof.
  revert tid s; induction tps as [|tp rest IH]; intros tid s Hu; cbn [inner].
  - destruct s; unfold matchings, Np.len; cbn; f_equal; lia.
  - cbn [match_row map]; fold (match_row dk db rest p); rewrite matchings_cons.
    destruct (close dk db tp p).
    + cbn [true_used used n_matchings n_reconstructions n_ghosts].
      apply Z.eqb_neq in Hu; rewrite Hu, andb_false_r.
      rewrite IH by (cbn [used]; apply Z.eqb_neq; exact Hu).
      cbn [true_used used n_matchings n_reconstructions n_ghosts]; f_equal; lia.
    + cbv iota; rewrite IH by exact Hu; f_equal; lia.
Qed.

(** The inner loop on a group that is not paired yet pairs it with the
    first free matching track. *)
Lemma inner_free (dk db : Q) (id : nat) (p : Q * Q) (tps : list (Q * Q))
    (tid : nat) (s : state) (used_tracks : list nat) :
  marks (true_used s) used_tracks ->
  nth id (used s) 0 = 0 -> (id < length (used s))%nat ->
  inner dk db id p tps tid s =
  match first_free (match_row dk db tps p) tid used_tracks with
  | Some i =>
      mkState (n_matchings s + matchings (match_row dk db tps p))
              (n_reconstructions s + 1) (n_ghosts s)
              (set_item (true_used s) i 1) (set_item (used s) id 1)
  | None =>
      mkState (n_matchings s + matchings (match_row dk db tps p))
              (n_reconstructions s) (n_ghosts s) (true_used s) (used s)
  end.
Proof.
  revert tid s; induction tps as [|tp rest IH]; intros tid s Hm Hu Hid; cbn [inner].
  - destruct s; unfold matchings, Np.len; cbn; f_equal; lia.
  - cbn [match_row map first_free]; fold (match_row dk db rest p); rewrite matchings_cons.
    destruct (close dk db tp p).
    + cbn [true_used used n_matchings n_reconstructions n_ghosts andb].
      rewrite (Hm tid), Hu, Z.eqb_refl, andb_true_r.
      destruct (negb (taken tid used_tracks)).
      * rewrite inner_used
          by (cbn [used]; rewrite nth_set_item_same by exact Hid; discriminate).
        cbn [true_used used n_matchings n_reconstructions n_ghosts]; f_equal; lia.
      * match goal with
        | |- inner _ _ _ _ _ _ ?s' = _ =>
            rewrite (IH (S tid) s' Hm) by (cbn [used]; assumption)
        end.
        cbn [true_used used n_matchings n_reconstructions n_ghosts].
        destruct (first_free (match_row dk db rest p) (S tid) used_tracks); f_equal; lia.
    + cbv iota; cbn [andb]; rewrite (IH (S tid) s Hm Hu Hid).
      destruct (first_free (match_row dk db rest p) (S tid) used_tracks); f_equal; lia.
Qed.

(** The two counters after the outer loop: the number of pairings and
    the number of groups without a matching. *)
Lemma outer_pairings (dk db : Q) (tps ps : list (Q * Q)) (id : nat) (s : state)
    (used_tracks : list nat) :
  marks (true_used s) used_tracks ->
  length (true_used s) = length tps ->
  (forall j, (id <= j)%nat -> nth j (used s) 0 = 0) ->
  (id + length ps <= length (used s))%nat ->
  n_reconstructions (outer dk db tps ps id s) =
    n_reconstructions s + Np.len (pairings (match_rows dk db tps ps) id used_tracks) /\
  n_ghosts (outer dk db tps ps id s) =
    n_ghosts s + Np.len (ghosts (match_rows dk db tps ps)).
Proof.
  revert id s used_tracks; induction ps as [|p rest IH];
    intros id s used_tracks Hm Hlen Hu Hid.
  - cbn; unfold Np.len; cbn; lia.
  - cbn [outer match_rows map pairings ghosts filter length] in *.
    fold (match_rows dk db tps rest); fold (ghosts (match_rows dk db tps rest)).
    rewrite (inner_free dk db id p tps 0 _ used_tracks)
      by (cbn [true_used used]; first [exact Hm|apply Hu; lia|lia]).
    cbn [true_used used n_matchings n_reconstructions n_ghosts].
    destruct (first_free (match_row dk db tps p) 0 used_tracks) as [i|] eqn:Hf.
    + apply first_free_Some in Hf; destruct Hf as (Hi & _ & He).
      unfold match_row in Hi; rewrite length_map in Hi.
      cbn [n_matchings]; rewrite Z.add_0_l, matchings_zero, He; cbn [negb].
      match goal with
      | |- context [outer dk db tps rest (S id) ?s'] =>
          destruct (IH (S id) s' (i :: used_tracks)) as [Hr Hg]
      end.
      * cbn [true_used]; apply marks_set_item; [exact Hm|lia].
      * cbn [true_used]; rewrite set_item_length; exact Hlen.
      * cbn [used]; intros j Hj; rewrite nth_set_item_other by lia; apply Hu; lia.
      * cbn [used]; rewrite set_item_length; lia.
      * rewrite Hr, Hg; cbn [n_reconstructions n_ghosts]; rewrite len_cons; lia.
    + cbn [n_matchings]; rewrite Z.add_0_l, matchings_zero.
      destruct (existsb (fun m : bool => m) (match_row dk db tps p)); cbn [negb].
      * match goal with
        | |- context [outer dk db tps rest (S id) ?s'] =>
            destruct (IH (S id) s' used_tracks) as [Hr Hg]
        end; cbn [true_used used]; try assumption;
          [intros j Hj; apply Hu; lia|lia|].
        rewrite Hr, Hg; cbn [n_reconstructions n_ghosts]; lia.
      * cbn [true_used used n_matchings n_reconstructions n_ghosts].
        match goal with
        | |- context [outer dk db tps rest (S id) ?s'] =>
            destruct (IH (S id) s' used_tracks) as [Hr Hg]
        end; cbn [true_used used]; try assumption;
          [intros j Hj; apply Hu; lia|lia|].
        rewrite Hr, Hg; cbn [n_reconstructions n_ghosts]; rewrite len_cons; lia.
Qed.

(** A true track is paired at most once. *)
Lemma pairings_le_tracks (n : nat) (rows : list (list bool)) (g : nat)
    (used_tracks : list nat) :
  NoDup used_tracks -> (forall i, In i used_tracks -> (i < n)%nat) ->
  (forall row, In row rows -> length row = n) ->
  (length (pairings rows g used_tracks) + length used_tracks <= n)%nat.
Proof.
  revert g used_tracks; induction rows as [|row rest IH];
    intros g used_tracks Hnd Hlt Hrows; cbn [pairings].
  - assert (Hle : (length used_tracks <= length (seq 0 n))%nat).
    { apply NoDup_incl_length; [exact Hnd|].
      intros i Hi; apply in_seq; specialize (Hlt i Hi); lia. }
    rewrite length_seq in Hle; cbn [length]; lia.
  - assert (Hrest : forall r, In r rest -> length r = n)
      by (intros r Hr; apply Hrows; right; exact Hr).
    destruct (first_free row 0 used_tracks) as [i|] eqn:Hf; [|apply IH; assumption].
    apply first_free_Some in Hf; destruct Hf as (Hi & Ht & _).
    rewrite (Hrows row (or_introl eq_refl)) in Hi.
    specialize (IH (S g) (i :: used_tracks)); cbn [length] in *.
    assert (Hnot : ~ In i used_tracks).
    { intro Hin; unfold taken in Ht.
      assert (existsb (Nat.eqb i) used_tracks = true)
        by (apply existsb_exists; exists i; split; [exact Hin|apply Nat.eqb_refl]).
      congruence. }
    assert (length (pairings rest (S g) (i :: used_tracks)) + S (length used_tracks) <= n)%nat.
    { apply IH; [constructor; assumption| |exact Hrest].
      intros j [<-|Hj]; [lia|apply Hlt; exact Hj]. }
    lia.
Qed.

(** A group is paired or a ghost, never both. *)
Lemma pairings_ghosts_le (rows : list (list bool)) (g : nat) (used_tracks : list nat) :
  (length (pairings rows g used_tracks) + length (ghosts rows) <= length rows)%nat.
Proof.
  revert g used_tracks; induction rows as [|row rest IH]; intros g used_tracks;
    cbn [pairings ghosts filter length]; [lia|].
  fold (ghosts rest).
  destruct (first_free row 0 used_tracks) as [i|] eqn:Hf.
  - apply first_free_Some in Hf; destruct Hf as (_ & _ & He); rewrite He; cbn [negb length].
    specialize (IH (S g) (i :: used_tracks)); lia.
  - specialize (IH (S g) used_tracks).
    destruct (negb (existsb (fun m : bool => m) row)); cbn [length]; lia.
Qed.

Import HitsSpec.

Lemma rows_same (event : Event) (m : list bool) :
  length event = length m -> rows event m = Ok (Np.mask event m).
Proof. intros H; unfold rows; rewrite H, Nat.eqb_refl; reflexivity. Qed.

Lemma rows_differ (event : Event) (m : list bool) :
  length event <> length m -> rows event m = Raise ValueError.
Proof.
  intros H; unfold rows; destruct (length event =? length m)%nat eqn:E;
    [apply Nat.eqb_eq in E; contradiction|reflexivity].
Qed.

Lemma Forall2_In_l {A B : Type} (R : A -> B -> Prop) (l : list A) (l' : list B)
    (a : A) :
  Forall2 R l l' -> In a l -> exists b, In b l' /\ R a b.
Proof.
  induction 1 as [|x y l l' Hxy _ IH]; intros Hin; [contradiction|].
  destruct Hin as [<-|Hin].
  - exists y; split; [left; reflexivity|exact Hxy].
  - destruct (IH Hin) as (b & Hb & Hr); exists b; split; [right; exact Hb|exact Hr].
Qed.

(** The hits of a true track and, on aligned labels, of a group are not
    empty. *)
Lemma hits_of_track_nonempty (event : Event) (g : Z) :
  In g (true_tracks event) -> hits_of_track event g <> [].
Proof.
  intros Hg; unfold true_tracks in Hg; apply filter_In in Hg; destruct Hg as [Hg _].
  apply (proj1 (unique_In _ _)) in Hg.
  apply HitsFacts.mask_nonempty; [rewrite length_map; reflexivity|].
  unfold TrackID_values in Hg; apply in_map_iff in Hg; destruct Hg as (h & Hh & Hin).
  apply in_map_iff; exists h; split; [apply Z.eqb_eq; exact Hh|exact Hin].
Qed.

Lemma hits_of_group_nonempty (event : Event) (labels : list Z) (g : Z) :
  length labels = length event -> In g (groups labels) ->
  hits_of_group event labels g <> [].
Proof.
  intros Hlen Hg; apply HitsFacts.groups_In in Hg; destruct Hg as [Hg _].
  apply HitsFacts.mask_nonempty; [rewrite length_map; symmetry; exact Hlen|].
  apply in_map_iff; exists g; split; [apply Z.eqb_refl|exact Hg].
Qed.

(** Least squares on exact rationals return on every sample that is not
    empty. *)
Lemma least_squares_line (track : Event) :
  track <> [] -> exists p, line LeastSquares.fit track = Ok p.
Proof.
  destruct track as [|h t]; [congruence|]; intros _.
  unfold line, LeastSquares.fit; cbn [map]; eauto.
Qed.

Lemma least_squares_tracks (event : Event) : returns_on_tracks LeastSquares.fit event.
Proof. intros g Hg; apply least_squares_line, hits_of_track_nonempty; exact Hg. Qed.

Lemma least_squares_groups (event : Event) (labels : list Z) :
  length labels = length event -> returns_on_groups LeastSquares.fit event labels.
Proof.
  intros Hlen g Hg; apply least_squares_line, hits_of_group_nonempty; assumption.
Qed.

Section Regression.

Variable regression : list Q -> list Q -> result (Q * Q).

Lemma true_loop_Ok (event : Event) (ul : list Z) (acc tps : list (Q * Q)) :
  true_loop regression event ul acc = Ok tps ->
  exists tps',
    tps = acc ++ tps' /\
    Forall2 (fun g p => line regression (hits_of_track event g) = Ok p)
            (filter is_label ul) tps'.
Proof.
  revert acc; induction ul as [|label rest IH]; intros acc; cbn [true_loop filter].
  - intros [= <-]; exists []; rewrite app_nil_r; split; [reflexivity|constructor].
  - change (negb (label =? -1)) with (is_label label); destruct (is_label label).
    + rewrite rows_same by (rewrite length_map; reflexivity); cbn [bind].
      fold (hits_of_track event label).
      destruct (line regression (hits_of_track event label)) as [p|] eqn:Hl;
        [|discriminate].
      cbn [bind]; intros H; apply IH in H; destruct H as (tps' & -> & Hall).
      exists (p :: tps'); rewrite <- app_assoc; split; [reflexivity|].
      constructor; assumption.
    + apply IH.
Qed.

Lemma reco_loop_Ok (event : Event) (labels ul : list Z) (acc ps : list (Q * Q)) :
  reco_loop regression event labels ul acc = Ok ps ->
  exists ps',
    ps = acc ++ ps' /\
    Forall2 (fun g p => line regression (hits_of_group event labels g) = Ok p)
            (filter is_label ul) ps'.
Proof.
  revert acc; induction ul as [|label rest IH]; intros acc; cbn [reco_loop filter].
  - intros [= <-]; exists []; rewrite app_nil_r; split; [reflexivity|constructor].
  - change (negb (label =? -1)) with (is_label label); destruct (is_label label).
    + destruct (rows event (map (fun l => l =? label) labels)) as [track|] eqn:Hr;
        [|discriminate].
      unfold rows in Hr.
      destruct (Nat.eqb (length event) (length (map (fun l => l =? label) labels)));
        [|discriminate].
      injection Hr as <-; cbn [bind]; fold (hits_of_group event labels label).
      destruct (line regression (hits_of_group event labels label)) as [p|] eqn:Hl;
        [|discriminate].
      cbn [bind]; intros H; apply IH in H; destruct H as (ps' & -> & Hall).
      exists (p :: ps'); rewrite <- app_assoc; split; [reflexivity|].
      constructor; assumption.
    + apply IH.
Qed.

(** The loop over the true tracks returns when the regression returns on
    each of them, and raises only what the regression raises. *)
Lemma true_loop_total (event : Event) (ul : list Z) (acc : list (Q * Q)) :
  (forall g, In g (filter is_label ul) ->
     exists p, line regression (hits_of_track event g) = Ok p) ->
  exists tps, true_loop regression event ul acc = Ok tps.
Proof.
  revert acc; induction ul as [|label rest IH]; intros acc Hall;
    cbn [true_loop filter] in *; [eauto|].
  change (negb (label =? -1)) with (is_label label) in *; destruct (is_label label).
  - rewrite rows_same by (rewrite length_map; reflexivity); cbn [bind].
    fold (hits_of_track event label).
    destruct (Hall label (or_introl eq_refl)) as [p Hp]; rewrite Hp; cbn [bind].
    apply IH; intros g Hg; apply Hall; right; exact Hg.
  - apply IH; exact Hall.
Qed.

Lemma true_loop_Raise (event : Event) (ul : list Z) (acc : list (Q * Q)) (e : exn) :
  true_loop regression event ul acc = Raise e ->
  exists g, In g (filter is_label ul) /\
            line regression (hits_of_track event g) = Raise e.
Proof.
  revert acc; induction ul as [|label rest IH]; intros acc; cbn [true_loop filter];
    [discriminate|].
  change (negb (label =? -1)) with (is_label label); destruct (is_label label).
  - rewrite rows_same by (rewrite length_map; reflexivity); cbn [bind].
    fold (hits_of_track event label).
    destruct (line regression (hits_of_track event label)) as [p|e'] eqn:Hl; cbn [bind].
    + intros H; apply IH in H; destruct H as (g & Hg & He); exists g; split;
        [right; exact Hg|exact He].
    + intros [= <-]; exists label; split; [left; reflexivity|exact Hl].
  - apply IH.
Qed.

Lemma reco_loop_total (event : Event) (labels ul : list Z) (acc : list (Q * Q)) :
  length labels = length event ->
  (forall g, In g (filter is_label ul) ->
     exists p, line regression (hits_of_group event labels g) = Ok p) ->
  exists ps, reco_loop regression event labels ul acc = Ok ps.
Proof.
  intros Hlen; revert acc; induction ul as [|label rest IH]; intros acc Hall;
    cbn [reco_loop filter] in *; [eauto|].
  change (negb (label =? -1)) with (is_label label) in *; destruct (is_label label).
  - rewrite rows_same by (rewrite length_map; symmetry; exact Hlen); cbn [bind].
    fold (hits_of_group event labels label).
    destruct (Hall label (or_introl eq_refl)) as [p Hp]; rewrite Hp; cbn [bind].
    apply IH; intros g Hg; apply Hall; right; exact Hg.
  - apply IH; exact Hall.
Qed.

Lemma reco_loop_Raise (event : Event) (labels ul : list Z) (acc : list (Q * Q))
    (e : exn) :
  reco_loop regression event labels ul acc = Raise e ->
  (e = ValueError /\ length labels <> length event /\ filter is_label ul <> []) \/
  (exists g, In g (filter is_label ul) /\
             line regression (hits_of_group event labels g) = Raise e).
Proof.
  revert acc; induction ul as [|label rest IH]; intros acc; cbn [reco_loop filter];
    [discriminate|].
  change (negb (label =? -1)) with (is_label label); destruct (is_label label).
  - destruct (Nat.eq_dec (length event) (length labels)) as [Hlen|Hlen].
    + rewrite rows_same by (rewrite length_map; exact Hlen); cbn [bind].
      fold (hits_of_group event labels label).
      destruct (line regression (hits_of_group event labels label)) as [p|e'] eqn:Hl;
        cbn [bind].
      * intros H; apply IH in H; destruct H as [(He & Hne & _)|(g & Hg & He)].
        -- left; split; [exact He|]; split; [exact Hne|discriminate].
        -- right; exists g; split; [right; exact Hg|exact He].
      * intros [= <-]; right; exists label; split; [left; reflexivity|exact Hl].
    + rewrite rows_differ by (rewrite length_map; exact Hlen); cbn [bind].
      intros [= <-]; left; split; [reflexivity|]; split; [congruence|discriminate].
  - apply IH.
Qed.

(** Without a group the loop over the labels selects nothing. *)
Lemma reco_loop_no_group (event : Event) (labels ul : list Z) (acc : list (Q * Q)) :
  filter is_label ul = [] -> reco_loop regression event labels ul acc = Ok acc.
Proof.
  induction ul as [|label rest IH]; cbn [reco_loop filter]; [reflexivity|].
  change (negb (label =? -1)) with (is_label label); destruct (is_label label);
    [discriminate|exact IH].
Qed.

(** With a group and labels of another length than the event, the first
    selection of rows fails. *)
Lemma reco_loop_misaligned (event : Event) (labels ul : list Z) (acc : list (Q * Q)) :
  length labels <> length event -> filter is_label ul <> [] ->
  reco_loop regression event labels ul acc = Raise ValueError.
Proof.
  intros Hlen; induction ul as [|label rest IH]; cbn [reco_loop filter]; [congruence|].
  change (negb (label =? -1)) with (is_label label); destruct (is_label label);
    [intros _|exact IH].
  rewrite rows_differ by (rewrite length_map; congruence); reflexivity.
Qed.

(** The closed form of the fields [fit] sets, when it returns. *)
Lemma param_fit_Ok (dk db : Q) (event : Event) (labels : list Z) (r : t) :
  fit regression dk db event labels = Ok r ->
  exists tps ps,
    Forall2 (fun g p => line regression (hits_of_track event g) = Ok p)
            (true_tracks event) tps /\
    Forall2 (fun g p => line regression (hits_of_group event labels g) = Ok p)
            (groups labels) ps /\
    Np.len tps = n_tracks event /\
    Np.len ps = Np.len (groups labels) /\
    r = if n_tracks event >? 0 then
          mk (1 * inject_Z (Np.len (pairings (match_rows dk db tps ps) 0 []))
              / inject_Z (n_tracks event))%Q
             (1 * inject_Z (Np.len (ghosts (match_rows dk db tps ps)))
              / inject_Z (n_tracks event))%Q
             (1 * inject_Z (Np.len ps
                            - Np.len (pairings (match_rows dk db tps ps) 0 [])
                            - Np.len (ghosts (match_rows dk db tps ps)))
              / inject_Z (n_tracks event))%Q
        else mk 0%Q 0%Q 0%Q.
Proof.
  unfold fit.
  destruct (true_loop regression event (Np.unique (TrackID_values event)) [])
    as [tps|] eqn:Ht; [|discriminate].
  destruct (reco_loop regression event labels (Np.unique labels) []) as [ps|] eqn:Hp;
    [|discriminate].
  cbn [bind]; intros Hr; exists tps, ps.
  apply true_loop_Ok in Ht; destruct Ht as (tps' & Ht & Hft).
  apply reco_loop_Ok in Hp; destruct Hp as (ps' & Hp & Hfp).
  cbn [app] in Ht, Hp; subst tps' ps'.
  fold (true_tracks event) in Hft; fold (groups labels) in Hfp.
  split; [exact Hft|]; split; [exact Hfp|].
  split; [rewrite HitsFacts.n_tracks_eq; unfold Np.len;
          rewrite <- (Forall2_length Hft); reflexivity|].
  split; [unfold Np.len; rewrite <- (Forall2_length Hfp); reflexivity|].
  destruct (outer_pairings dk db tps ps 0
              (mkState 0 0 0 (zeros (length tps)) (zeros (length ps))) []) as [Hrec Hgh].
  - apply marks_zeros.
  - cbn [true_used]; unfold zeros; apply repeat_length.
  - intros j _; cbn [used]; unfold zeros; apply nth_repeat.
  - cbn [used]; unfold zeros; rewrite repeat_length; lia.
  - cbn [n_reconstructions n_ghosts] in Hrec, Hgh; rewrite Z.add_0_l in Hrec, Hgh.
    rewrite Hrec, Hgh in Hr.
    destruct (n_tracks event >? 0); injection Hr as <-; reflexivity.
Qed.

Lemma param_fit_no_group (dk db : Q) (event : Event) (labels : list Z) :
  groups labels = [] -> returns_on_tracks regression event ->
  exists r, fit regression dk db event labels = Ok r.
Proof.
  intros Hg Hret; unfold fit.
  destruct (true_loop_total event (Np.unique (TrackID_values event)) [] Hret)
    as [tps Ht].
  rewrite Ht, reco_loop_no_group by exact Hg; cbn [bind].
  destruct (n_tracks event >? 0); eauto.
Qed.

Lemma param_fit_misaligned (dk db : Q) (event : Event) (labels : list Z) :
  length labels <> length event -> groups labels <> [] ->
  returns_on_tracks regression event ->
  fit regression dk db event labels = Raise ValueError.
Proof.
  intros Hlen Hg Hret; unfold fit.
  destruct (true_loop_total event (Np.unique (TrackID_values event)) [] Hret)
    as [tps Ht].
  rewrite Ht, reco_loop_misaligned; [reflexivity|exact Hlen|exact Hg].
Qed.

(** [fit] returns when the labels are aligned with the hits and the
    regression returns on every true track and every group. *)
Lemma param_fit_total (dk db : Q) (event : Event) (labels : list Z) :
  length labels = length event ->
  returns_on_tracks regression event -> returns_on_groups regression event labels ->
  exists r, fit regression dk db event labels = Ok r.
Proof.
  intros Hlen Htr Hgr; unfold fit.
  destruct (true_loop_total event (Np.unique (TrackID_values event)) [] Htr)
    as [tps Ht].
  destruct (reco_loop_total event labels (Np.unique labels) [] Hlen Hgr) as [ps Hp].
  rewrite Ht, Hp; cbn [bind].
  destruct (n_tracks event >? 0); eauto.
Qed.

(** [fit] raises what the regression raises on a true track or a group,
    or the error of the selection of the rows of a group. *)
Lemma param_fit_Raise (dk db : Q) (event : Event) (labels : list Z) (e : exn) :
  fit regression dk db event labels = Raise e ->
  (exists g, In g (true_tracks event) /\
             line regression (hits_of_track event g) = Raise e) \/
  (e = ValueError /\ length labels <> length event /\ groups labels <> []) \/
  (exists g, In g (groups labels) /\
             line regression (hits_of_group event labels g) = Raise e).
Proof.
  unfold fit.
  destruct (true_loop regression event (Np.unique (TrackID_values event)) [])
    as [tps|e'] eqn:Ht; cbn [bind].
  - destruct (reco_loop regression event labels (Np.unique labels) []) as [ps|e'] eqn:Hp;
      cbn [bind].
    + destruct (n_tracks event >? 0); discriminate.
    + intros [= <-]; right; apply reco_loop_Raise in Hp; exact Hp.
  - intros [= <-]; left; apply true_loop_Raise in Ht; exact Ht.
Qed.

End Regression.

End ParamFacts.

(** * The properties of [fit] *)

Import HitsSpec ParamSpec.

(** C1, as the claim states it: on two hits of one true track labelled as
    two groups, the ghost rate [fit] sets is [0] and
    [(|R| - |D|) / n_tracks] is [1]. *)
Lemma ghost_rate_stated_fails :
  0 < n_tracks Scenario.split_event /\
  exists r,
    H.fit (1 # 2) Scenario.split_event Scenario.split_labels = Ok r /\
    ~ (H.ghost_rate_ r
       == Stated.ghost_rate (1 # 2) Scenario.split_event Scenario.split_labels)%Q.
Proof.
  split; [reflexivity|].
  eexists; split; [vm_compute; reflexivity|].
  vm_compute; discriminate.
Qed.

(** C1, amended: when [n_tracks > 0], [ghost_rate_] is
    [(|G| - |M|) / n_tracks], where [G] is the set of all the groups (the
    distinct labels other than [-1]) and [M] the groups whose efficiency
    reaches the threshold and whose dominant TrackID is not [-1], each
    group counted, without deduplication of the TrackIDs.  [fit] returns
    on aligned labels. *)
Theorem hits_ghost_rate (thr : Q) (event : Event) (labels : list Z) :
  0 < n_tracks event ->
  (length labels = length event -> exists r, H.fit thr event labels = Ok r) /\
  (forall r, H.fit thr event labels = Ok r ->
     (H.ghost_rate_ r
      == inject_Z (Np.len (groups labels) - Np.len (matched thr event labels))
         / inject_Z (n_tracks event))%Q).
Proof.
  intros Hn; split; [apply HitsFacts.hits_fit_total|].
  intros r Hr; apply HitsFacts.hits_fit_Ok in Hr; destruct Hr as [-> _].
  cbn [H.ghost_rate_].
  apply Z.gtb_lt in Hn; rewrite Hn, Qmult_1_l; reflexivity.
Qed.

Lemma hits_ghost_rate_witness :
  exists r,
    H.fit (1 # 2) Scenario.split_event Scenario.split_labels = Ok r /\
    (H.ghost_rate_ r == 0)%Q.
Proof.
  assert (Hn : 0 < n_tracks Scenario.split_event) by reflexivity.
  destruct (hits_ghost_rate (1 # 2) Scenario.split_event Scenario.split_labels Hn)
    as [Htot Hrate].
  destruct (Htot eq_refl) as [r Hr].
  exists r; split; [exact Hr|].
  eapply Qeq_trans; [exact (Hrate r Hr)|vm_compute; reflexivity].
Defined.

(** C2, as the claim states it: on the scenario, the loop would assign the
    dominant TrackIDs [0] and [1] and [fit] would report the rates [1],
    [0] and [0].  The code assigns [-1] to group [6]. *)
Lemma scenario_stated_fails :
  ~ exists r es ts,
      H.loop (TrackID_values Scenario.event) Scenario.labels
             (Np.unique Scenario.labels) [] [] = Ok (es, ts) /\
      H.fit (1 # 2) Scenario.event Scenario.labels = Ok r /\
      Forall2 Qeq (H.efficiencies_ r) [3 # 4; 1 # 2]%Q /\
      ts = [0; 1] /\
      n_tracks Scenario.event = 2 /\
      (H.reconstruction_efficiency_ r == 1)%Q /\
      (H.ghost_rate_ r == 0)%Q /\
      (H.clone_rate_ r == 0)%Q.
Proof.
  intros (r & es & ts & Hloop & _ & _ & Hts & _).
  vm_compute in Hloop; injection Hloop as _ <-; discriminate Hts.
Qed.

(** C2, amended: on the scenario (TrackIDs [0,0,0,1,1,-1], labels
    [5,5,5,5,6,6], threshold 0.5) the efficiencies are 0.75 and 0.5, the
    dominant TrackID of group [5] is [0] and that of group [6] is [-1]
    (the tie of [-1] and [1] goes to the smaller value), [n_tracks] is 2,
    and [fit] reports [reconstruction_efficiency_ = 0.5],
    [ghost_rate_ = 0.5] and [clone_rate_ = 0]. *)
Theorem scenario_hits :
  exists r es,
    H.loop (TrackID_values Scenario.event) Scenario.labels
           (Np.unique Scenario.labels) [] [] = Ok (es, [0; -1]) /\
    H.fit (1 # 2) Scenario.event Scenario.labels = Ok r /\
    Forall2 Qeq (H.efficiencies_ r) [3 # 4; 1 # 2]%Q /\
    n_tracks Scenario.event = 2 /\
    (H.reconstruction_efficiency_ r == 1 # 2)%Q /\
    (H.ghost_rate_ r == 1 # 2)%Q /\
    (H.clone_rate_ r == 0)%Q.
Proof.
  eexists; eexists; split; [vm_compute; reflexivity|].
  split; [vm_compute; reflexivity|].
  cbn [H.efficiencies_ H.reconstruction_efficiency_ H.ghost_rate_ H.clone_rate_].
  split; [repeat constructor|].
  repeat split.
Qed.

(** C3, as the claim states it: on one noise hit labelled [5],
    [n_tracks] is [0] and [avg_efficiency_] is [1], not [0]. *)
Lemma avg_efficiency_stated_fails :
  n_tracks Scenario.noise_event = 0 /\
  exists r,
    H.fit (1 # 2) Scenario.noise_event [5] = Ok r /\
    ~ (exists q, H.avg_efficiency_ r = Some q /\ (q == 0)%Q).
Proof.
  split; [reflexivity|].
  eexists; split; [vm_compute; reflexivity|].
  cbn [H.avg_efficiency_]; intros (q & [= <-] & Hq); discriminate Hq.
Qed.

(** C3, amended: when [n_tracks] is [0], each scorer sets its three
    rates, [reconstruction_efficiency_], [ghost_rate_] and [clone_rate_],
    to exactly [0], without a division.  [avg_efficiency_] has no such
    guard: it is the mean of [efficiencies_] whatever [n_tracks] is.
    The hit-matching [fit] returns on aligned labels, and so does the
    parameter-matching [fit] when the regression returns on every
    group. *)
Theorem rates_zero_without_tracks (regression : list Q -> list Q -> result (Q * Q))
    (thr dk db : Q) (event : Event) (labels : list Z) :
  n_tracks event = 0 ->
  (length labels = length event -> exists r, H.fit thr event labels = Ok r) /\
  (length labels = length event -> returns_on_groups regression event labels ->
     exists r, P.fit regression dk db event labels = Ok r) /\
  (forall r, H.fit thr event labels = Ok r ->
     H.reconstruction_efficiency_ r = 0%Q /\ H.ghost_rate_ r = 0%Q /\
     H.clone_rate_ r = 0%Q /\
     H.avg_efficiency_ r = Np.mean (H.efficiencies_ r)) /\
  (forall r, P.fit regression dk db event labels = Ok r ->
     P.reconstruction_efficiency_ r = 0%Q /\ P.ghost_rate_ r = 0%Q /\
     P.clone_rate_ r = 0%Q).
Proof.
  intros Hn; split; [|split; [|split]].
  - apply HitsFacts.hits_fit_total.
  - intros Hlen Hret; apply ParamFacts.param_fit_total; [exact Hlen| |exact Hret].
    intros g Hg; exfalso.
    rewrite HitsFacts.n_tracks_eq in Hn; fold (true_tracks event) in Hn.
    destruct (true_tracks event); [exact Hg|].
    rewrite NpFacts.len_cons in Hn; pose proof (NpFacts.len_nonneg l); lia.
  - intros r Hr; apply HitsFacts.hits_fit_Ok in Hr; destruct Hr as [-> _].
    rewrite Hn; cbn; auto.
  - intros r Hr; apply ParamFacts.param_fit_Ok in Hr.
    destruct Hr as (tps & ps & _ & _ & _ & _ & ->).
    rewrite Hn; cbn; auto.
Qed.

Lemma rates_zero_without_tracks_witness :
  exists r,
    H.fit (1 # 2) Scenario.noise_event [5] = Ok r /\
    H.reconstruction_efficiency_ r = 0%Q /\ H.ghost_rate_ r = 0%Q /\
    H.clone_rate_ r = 0%Q.
Proof.
  assert (Hn : n_tracks Scenario.noise_event = 0) by reflexivity.
  destruct (rates_zero_without_tracks LeastSquares.fit (1 # 2) (1 # 2) (1 # 2)
              Scenario.noise_event [5] Hn) as (Htot & _ & Hh & _).
  destruct (Htot eq_refl) as [r Hr].
  exists r; split; [exact Hr|].
  destruct (Hh r Hr) as (H1 & H2 & H3 & _); auto.
Defined.

(** C4, as the claim states it: on one noise hit and the two labels
    [-1, -1], of another length than the event, both [fit] return and
    raise nothing; the regression is not even called. *)
Lemma input_shape_error_stated_fails :
  length [-1; -1] <> length Scenario.noise_event /\
  (exists r, H.fit (1 # 2) Scenario.noise_event [-1; -1] = Ok r) /\
  (exists r, P.fit (fun _ _ => Raise ValueError) (1 # 2) (1 # 2)
               Scenario.noise_event [-1; -1] = Ok r).
Proof.
  split; [discriminate|].
  split; eexists; vm_compute; reflexivity.
Qed.

(** C4, amended: [fit] checks no length and knows no [InputShapeError].
    When the length of the labels differs from the number of hits and
    some label is not [-1], [fit] ends at the selection of the hits of
    the first group with the error of the array library, [IndexError] in
    the hit-matching scorer and, once the regressions of the true tracks
    have returned, [ValueError] in the parameter-matching one; when every
    label is [-1], the hit-matching [fit] returns, and so does the
    parameter-matching [fit] when the regressions of the true tracks
    return. *)
Theorem misaligned_labels (regression : list Q -> list Q -> result (Q * Q))
    (thr dk db : Q) (event : Event) (labels : list Z) :
  length labels <> length event ->
  (groups labels <> [] ->
     H.fit thr event labels = Raise IndexError /\
     (returns_on_tracks regression event ->
      P.fit regression dk db event labels = Raise ValueError)) /\
  (groups labels = [] ->
     (exists r, H.fit thr event labels = Ok r) /\
     (returns_on_tracks regression event ->
      exists r, P.fit regression dk db event labels = Ok r)).
Proof.
  intros Hlen; split; intros Hg; split.
  - apply HitsFacts.hits_fit_misaligned; assumption.
  - intros Hret; apply ParamFacts.param_fit_misaligned; assumption.
  - apply HitsFacts.hits_fit_no_group; exact Hg.
  - intros Hret; apply ParamFacts.param_fit_no_group; assumption.
Qed.

Lemma misaligned_labels_witness :
  H.fit (1 # 2) Scenario.single_event [5; 5] = Raise IndexError /\
  P.fit LeastSquares.fit (1 # 2) (1 # 2) Scenario.single_event [5; 5] = Raise ValueError.
Proof.
  assert (Hlen : length [5; 5] <> length Scenario.single_event) by discriminate.
  destruct (misaligned_labels LeastSquares.fit (1 # 2) (1 # 2) (1 # 2)
              Scenario.single_event [5; 5] Hlen) as [Hraise _].
  destruct Hraise as [Hh Hp]; [discriminate|].
  split; [exact Hh|apply Hp, ParamFacts.least_squares_tracks].
Defined.

(** C5, as the claim states it: the event of a single hit has a true
    track and a group of fewer than two hits; with least squares, which
    give such a sample the slope [0] and the intercept [y], [fit]
    returns the rates [1], [0] and [0] and raises nothing. *)
Lemma degenerate_fit_stated_fails :
  Stated.degenerate (hits_of_track Scenario.single_event 0) = true /\
  Stated.degenerate (hits_of_group Scenario.single_event [5] 5) = true /\
  P.line LeastSquares.fit (hits_of_track Scenario.single_event 0) = Ok (0%Q, 2%Q) /\
  exists r, P.fit LeastSquares.fit (1 # 2) (1 # 2) Scenario.single_event [5] = Ok r.
Proof.
  split; [reflexivity|]; split; [reflexivity|]; split; [reflexivity|].
  eexists; vm_compute; reflexivity.
Qed.

(** C5, amended: the parameter-matching [fit] checks neither the number
    of hits nor the variance of [X] and knows no [DegenerateFitError]:
    every true track and every group, degenerate or not, is handed to
    the regression.  On aligned labels [fit] returns its rates exactly
    when the regression returns on each of them, and otherwise ends with
    the error the regression raised on a true track or a group. *)
Theorem degenerate_fit_returns (regression : list Q -> list Q -> result (Q * Q))
    (dk db : Q) (event : Event) (labels : list Z) :
  length labels = length event ->
  ((exists r, P.fit regression dk db event labels = Ok r) <->
   (returns_on_tracks regression event /\ returns_on_groups regression event labels)) /\
  (forall e, P.fit regression dk db event labels = Raise e ->
     (exists g, In g (true_tracks event) /\
                P.line regression (hits_of_track event g) = Raise e) \/
     (exists g, In g (groups labels) /\
                P.line regression (hits_of_group event labels g) = Raise e)).
Proof.
  intros Hlen; split; [split|].
  - intros [r Hr]; apply ParamFacts.param_fit_Ok in Hr.
    destruct Hr as (tps & ps & Ht & Hp & _).
    split; intros g Hg.
    + destruct (ParamFacts.Forall2_In_l _ _ _ _ Ht Hg) as (p & _ & Hl); exists p; exact Hl.
    + destruct (ParamFacts.Forall2_In_l _ _ _ _ Hp Hg) as (p & _ & Hl); exists p; exact Hl.
  - intros [Ht Hg]; apply ParamFacts.param_fit_total; assumption.
  - intros e He; apply ParamFacts.param_fit_Raise in He.
    destruct He as [Ht|[(_ & Hne & _)|Hg]]; [left; exact Ht|contradiction|right; exact Hg].
Qed.

Lemma degenerate_fit_returns_witness :
  Stated.degenerate (hits_of_track Scenario.single_event 0) = true /\
  exists r, P.fit LeastSquares.fit (1 # 2) (1 # 2) Scenario.single_event [5] = Ok r.
Proof.
  split; [reflexivity|].
  destruct (degenerate_fit_returns LeastSquares.fit (1 # 2) (1 # 2)
              Scenario.single_event [5] eq_refl) as [[_ Hret] _].
  apply Hret; split;
    [apply ParamFacts.least_squares_tracks|apply ParamFacts.least_squares_groups; reflexivity].
Defined.

(** C6: in the parameter-matching scorer, with [n_tracks > 0], the lines
    of the true tracks are taken in ascending order of TrackID and those
    of the groups in ascending order of label; a group and a true track
    match exactly when the slopes differ by at most [delta_k] and the
    intercepts by at most [delta_b]; [n_reconstructions] is the number of
    pairings in which every group, in order, takes the first matching
    true track that no earlier group took (every pair matches, no group
    and no true track is paired twice, and a group that matches a track
    is paired with it or with an earlier track unless an earlier group
    took it); a group that no true track matches is a ghost; and the
    three rates are [n_reconstructions / n_tracks],
    [n_ghosts / n_tracks] and
    [(total_groups - n_reconstructions - n_ghosts) / n_tracks], with
    [total_groups] the number of distinct labels other than [-1].  [fit]
    returns on aligned labels when the regression returns on every true
    track and every group. *)
Theorem param_greedy_assignment (regression : list Q -> list Q -> result (Q * Q))
    (dk db : Q) (event : Event) (labels : list Z) :
  0 < n_tracks event ->
  (length labels = length event ->
   returns_on_tracks regression event -> returns_on_groups regression event labels ->
   exists r, P.fit regression dk db event labels = Ok r) /\
  (forall r, P.fit regression dk db event labels = Ok r ->
     exists true_params params,
       StronglySorted Z.lt (true_tracks event) /\
       StronglySorted Z.lt (groups labels) /\
       Forall2 (fun g p => P.line regression (hits_of_track event g) = Ok p)
               (true_tracks event) true_params /\
       Forall2 (fun g p => P.line regression (hits_of_group event labels g) = Ok p)
               (groups labels) params /\
       (forall t p, P.close dk db t p = true <->
                    (Qabs (fst t - fst p) <= dk /\ Qabs (snd t - snd p) <= db)%Q) /\
       let rows := match_rows dk db true_params params in
       let pairs := pairings rows 0 [] in
       let n_reconstructions := Np.len pairs in
       let n_ghosts := Np.len (ghosts rows) in
       let total_groups := Np.len (groups labels) in
       (forall g i t p,
          nth_error params g = Some p -> nth_error true_params i = Some t ->
          matches_at rows g i = P.close dk db t p) /\
       (forall g i, In (g, i) pairs -> matches_at rows g i = true) /\
       NoDup (map fst pairs) /\ NoDup (map snd pairs) /\
       (forall g j, matches_at rows g j = true ->
          (exists g', (g' < g)%nat /\ In (g', j) pairs) \/
          (exists i, (i <= j)%nat /\ In (g, i) pairs)) /\
       (forall row, In row (ghosts rows) <->
                    In row rows /\ forall m, In m row -> m = false) /\
       (P.reconstruction_efficiency_ r
        == inject_Z n_reconstructions / inject_Z (n_tracks event))%Q /\
       (P.ghost_rate_ r == inject_Z n_ghosts / inject_Z (n_tracks event))%Q /\
       (P.clone_rate_ r
        == inject_Z (total_groups - n_reconstructions - n_ghosts)
           / inject_Z (n_tracks event))%Q).
Proof.
  intros Hn; split; [apply ParamFacts.param_fit_total|].
  intros r Hr; apply ParamFacts.param_fit_Ok in Hr.
  destruct Hr as (tps & ps & Ht & Hp & _ & Hlen & ->).
  exists tps, ps.
  split; [apply HitsFacts.true_tracks_sorted|].
  split; [apply HitsFacts.groups_sorted|].
  split; [exact Ht|]; split; [exact Hp|].
  split.
  { intros t p; unfold P.close; rewrite andb_true_iff, !Qle_bool_iff; tauto. }
  cbv zeta.
  destruct (ParamFacts.pairings_spec (match_rows dk db tps ps) 0 [])
    as (Hs & Hfst & Hsnd & Hgr).
  split; [intros g i t p; apply ParamFacts.matches_at_close|].
  split.
  { intros g i Hin; destruct (Hs g i Hin) as (_ & Hm & _).
    rewrite Nat.sub_0_r in Hm; exact Hm. }
  split; [exact Hfst|]; split; [exact Hsnd|].
  split.
  { intros g j Hm; destruct (Hgr g j Hm) as [[]|[H|H]]; [left|right]; exact H. }
  split.
  { intros row; unfold ghosts; rewrite filter_In, negb_true_iff.
    split; intros [Hin Hrow]; (split; [exact Hin|]).
    - intros m Hm; destruct m; [|reflexivity].
      assert (existsb (fun m : bool => m) row = true)
        by (apply existsb_exists; exists true; auto).
      congruence.
    - destruct (existsb (fun m : bool => m) row) eqn:E; [|reflexivity].
      apply existsb_exists in E; destruct E as (m & Hm & ->).
      apply Hrow; exact Hm. }
  apply Z.gtb_lt in Hn; rewrite Hn.
  cbn [P.reconstruction_efficiency_ P.ghost_rate_ P.clone_rate_].
  rewrite <- Hlen, !Qmult_1_l; repeat split; reflexivity.
Qed.

Lemma param_greedy_assignment_witness :
  exists r,
    P.fit LeastSquares.fit (1 # 10) (1 # 10) Scenario.lines_event Scenario.lines_labels = Ok r /\
    (P.reconstruction_efficiency_ r == 1)%Q.
Proof.
  assert (Hn : 0 < n_tracks Scenario.lines_event) by reflexivity.
  destruct (param_greedy_assignment LeastSquares.fit (1 # 10) (1 # 10)
              Scenario.lines_event Scenario.lines_labels Hn) as [Htot _].
  destruct (Htot eq_refl (ParamFacts.least_squares_tracks Scenario.lines_event)
              (ParamFacts.least_squares_groups
                 Scenario.lines_event Scenario.lines_labels eq_refl)) as [r Hr].
  exists r; split; [exact Hr|].
  vm_compute in Hr; injection Hr as <-; reflexivity.
Defined.

(** C7: in the hit-matching scorer the loop assigns to every group (the
    distinct labels other than [-1], in ascending order) the TrackID that
    occurs most often among the hits of the group and, among the most
    frequent ones, the smallest; that TrackID may be [-1], as for a group
    of one hit of track [1] and one noise hit.  The loop returns on
    aligned labels. *)
Theorem dominant_track (event : Event) (labels : list Z) :
  (length labels = length event ->
     exists es ts,
       H.loop (TrackID_values event) labels (Np.unique labels) [] [] = Ok (es, ts)) /\
  (forall es ts,
     H.loop (TrackID_values event) labels (Np.unique labels) [] [] = Ok (es, ts) ->
     Forall2 (fun g d => is_dominant (track_of (TrackID_values event) labels g) d)
             (groups labels) ts) /\
  (exists eff, H.group [1; -1] [6; 6] 6 = Ok (eff, -1)).
Proof.
  split; [|split].
  - intros Hlen; apply HitsFacts.loop_total.
    + unfold TrackID_values; rewrite length_map; symmetry; exact Hlen.
    + intros x Hx; apply NpFacts.unique_In; exact Hx.
  - intros es ts Hloop; apply HitsFacts.loop_Ok in Hloop.
    destruct Hloop as (_ & -> & Hall); cbn [app].
    apply HitsFacts.Forall2_map_dominant; exact Hall.
  - eexists; vm_compute; reflexivity.
Qed.

Lemma dominant_track_witness :
  exists es ts,
    H.loop (TrackID_values Scenario.event) Scenario.labels
           (Np.unique Scenario.labels) [] [] = Ok (es, ts) /\
    Forall2 (fun g d =>
               is_dominant (track_of (TrackID_values Scenario.event) Scenario.labels g) d)
            (groups Scenario.labels) ts.
Proof.
  destruct (dominant_track Scenario.event Scenario.labels) as (Htot & Hdom & _).
  destruct (Htot eq_refl) as (es & ts & Hloop).
  exists es, ts; split; [exact Hloop|exact (Hdom es ts Hloop)].
Defined.

(** C8: after [fit], in both scorers, [reconstruction_efficiency_ <= 1],
    [ghost_rate_ >= 0] and [clone_rate_ >= 0].  The hit-matching [fit]
    returns on aligned labels, and so does the parameter-matching [fit]
    when the regression returns on every true track and every group. *)
Theorem rates_bounds (regression : list Q -> list Q -> result (Q * Q))
    (thr dk db : Q) (event : Event) (labels : list Z) :
  (length labels = length event -> exists r, H.fit thr event labels = Ok r) /\
  (length labels = length event ->
   returns_on_tracks regression event -> returns_on_groups regression event labels ->
   exists r, P.fit regression dk db event labels = Ok r) /\
  (forall r, H.fit thr event labels = Ok r ->
     (H.reconstruction_efficiency_ r <= 1 /\ 0 <= H.ghost_rate_ r /\
      0 <= H.clone_rate_ r)%Q) /\
  (forall r, P.fit regression dk db event labels = Ok r ->
     (P.reconstruction_efficiency_ r <= 1 /\ 0 <= P.ghost_rate_ r /\
      0 <= P.clone_rate_ r)%Q).
Proof.
  split; [|split; [|split]].
  - apply HitsFacts.hits_fit_total.
  - apply ParamFacts.param_fit_total.
  - intros r Hr; apply HitsFacts.hits_fit_Ok in Hr; destruct Hr as [-> Hall].
    cbn [H.reconstruction_efficiency_ H.ghost_rate_ H.clone_rate_].
    pose proof (HitsFacts.reconstructed_le_n_tracks thr event labels Hall) as H1.
    pose proof (HitsFacts.matched_le_groups thr event labels) as H2.
    pose proof (HitsFacts.reconstructed_le_matched thr event labels) as H3.
    destruct (n_tracks event >? 0) eqn:Hn; [|repeat split; discriminate].
    apply Z.gtb_lt in Hn; split; [|split].
    + apply RateFacts.rate_le_1; lia.
    + apply RateFacts.rate_nonneg; lia.
    + apply RateFacts.quot_nonneg; lia.
  - intros r Hr; apply ParamFacts.param_fit_Ok in Hr.
    destruct Hr as (tps & ps & _ & _ & Ht & Hp & ->).
    pose proof (ParamFacts.pairings_le_tracks (length tps) (match_rows dk db tps ps) 0 [])
      as H1.
    pose proof (ParamFacts.pairings_ghosts_le (match_rows dk db tps ps) 0 []) as H2.
    unfold match_rows at 3 in H2; rewrite length_map in H2.
    assert (H1' : (length (pairings (match_rows dk db tps ps) 0 []) + 0 <= length tps)%nat).
    { apply H1; [constructor|intros i []|].
      intros row Hrow; unfold match_rows in Hrow; apply in_map_iff in Hrow.
      destruct Hrow as (p & <- & _); unfold match_row; apply length_map. }
    destruct (n_tracks event >? 0) eqn:Hn; [|repeat split; discriminate].
    apply Z.gtb_lt in Hn; cbn [P.reconstruction_efficiency_ P.ghost_rate_ P.clone_rate_].
    unfold Np.len in *; split; [|split].
    + apply RateFacts.rate_le_1; lia.
    + apply RateFacts.rate_nonneg; lia.
    + apply RateFacts.rate_nonneg; lia.
Qed.

Lemma rates_bounds_witness :
  exists r,
    H.fit (1 # 2) Scenario.event Scenario.labels = Ok r /\
    (H.reconstruction_efficiency_ r <= 1 /\ 0 <= H.ghost_rate_ r /\
     0 <= H.clone_rate_ r)%Q.
Proof.
  destruct (rates_bounds LeastSquares.fit (1 # 2) (1 # 2) (1 # 2)
              Scenario.event Scenario.labels) as (Htot & _ & Hh & _).
  destruct (Htot eq_refl) as [r Hr].
  exists r; split; [exact Hr|exact (Hh r Hr)].
Defined.

(** C9: in the hit-matching scorer every element of [efficiencies_] lies
    between 0 and 1, and the efficiency of a group all of whose hits
    carry one TrackID is exactly 1.  [fit] returns on aligned labels. *)
Theorem efficiencies_unit_interval (thr : Q) (event : Event) (labels : list Z) :
  (length labels = length event -> exists r, H.fit thr event labels = Ok r) /\
  (forall r, H.fit thr event labels = Ok r ->
     Forall (fun e => 0 <= e /\ e <= 1)%Q (H.efficiencies_ r) /\
     forall i g v,
       nth_error (groups labels) i = Some g ->
       (forall x, In x (track_of (TrackID_values event) labels g) -> x = v) ->
       exists e, nth_error (H.efficiencies_ r) i = Some e /\ (e == 1)%Q).
Proof.
  split; [apply HitsFacts.hits_fit_total|].
  intros r Hr; apply HitsFacts.hits_fit_Ok in Hr; destruct Hr as [-> Hall].
  cbn [H.efficiencies_]; split.
  - apply Forall_forall; intros e He; apply in_map_iff in He.
    destruct He as (g & <- & Hg); destruct (Hall g Hg) as (eff & d & Hgrp).
    destruct (HitsFacts.efficiency_of_Ok _ _ _ _ _ Hgrp) as [-> _].
    eapply HitsFacts.group_efficiency_bounds; exact Hgrp.
  - intros i g v Hi Hsame.
    exists (efficiency_of (TrackID_values event) labels g); split.
    + apply map_nth_error; exact Hi.
    + destruct (Hall g (nth_error_In _ _ Hi)) as (eff & d & Hgrp).
      destruct (HitsFacts.efficiency_of_Ok _ _ _ _ _ Hgrp) as [-> _].
      apply HitsFacts.group_Ok in Hgrp; destruct Hgrp as (_ & Hne & (Hin & _) & ->).
      rewrite (Hsame d Hin), (NpFacts.count_all v _ Hsame).
      apply RateFacts.rate_self.
      destruct (track_of (TrackID_values event) labels g); [congruence|].
      rewrite NpFacts.len_cons; pose proof (NpFacts.len_nonneg l); lia.
Qed.

Lemma efficiencies_unit_interval_witness :
  exists r,
    H.fit (1 # 2) Scenario.split_event Scenario.split_labels = Ok r /\
    Forall (fun e => 0 <= e /\ e <= 1)%Q (H.efficiencies_ r) /\
    exists e, nth_error (H.efficiencies_ r) 0 = Some e /\ (e == 1)%Q.
Proof.
  destruct (efficiencies_unit_interval (1 # 2) Scenario.split_event Scenario.split_labels)
    as [Htot Heff].
  destruct (Htot eq_refl) as [r Hr].
  exists r; split; [exact Hr|].
  destruct (Heff r Hr) as [Hall Hone]; split; [exact Hall|].
  apply (Hone 0%nat 5 0); [reflexivity|].
  intros x Hx; vm_compute in Hx; destruct Hx as [<-|[]]; reflexivity.
Defined.

(** C10, as the claim states it: on ten true tracks, one of them
    reconstructed by one group, and two groups of noise, the counts of
    reconstructions, ghosts and clones are 1, 2 and 0 and the rates in
    exact arithmetic 1/10, 2/10 and 0; the three quotients the code
    stores, each rounded to binary64, do not add up to the binary64
    quotient 3/10 of the number of groups by [n_tracks]. *)
Lemma rates_sum_stated_fails :
  n_tracks Scenario.tenth_event = 10 /\
  Np.len (groups Scenario.tenth_labels) = 3 /\
  Np.len (matched (1 # 2) Scenario.tenth_event Scenario.tenth_labels) = 1 /\
  Np.len (reconstructed (1 # 2) Scenario.tenth_event Scenario.tenth_labels) = 1 /\
  (exists r,
     H.fit (1 # 2) Scenario.tenth_event Scenario.tenth_labels = Ok r /\
     (H.reconstruction_efficiency_ r == 1 # 10 /\ H.ghost_rate_ r == 2 # 10 /\
      H.clone_rate_ r == 0)%Q) /\
  PrimFloat.eqb
    (Binary64.hits_rates_sum (1 # 2) Scenario.tenth_event Scenario.tenth_labels)
    (Binary64.groups_over_tracks Scenario.tenth_event Scenario.tenth_labels) = false.
Proof.
  split; [reflexivity|]; split; [reflexivity|]; split; [reflexivity|].
  split; [reflexivity|]; split; [|vm_compute; reflexivity].
  eexists; split; [vm_compute; reflexivity|].
  cbn [H.reconstruction_efficiency_ H.ghost_rate_ H.clone_rate_]; repeat split.
Qed.

(** C10, amended: with [n_tracks > 0], in both scorers the three rates
    are the quotients by [n_tracks] of three counts, of reconstructions,
    of ghosts and of clones, that are not negative and add up to the
    number of groups (the distinct labels other than [-1]).  The identity
    is one of the counts; each quotient is rounded on its own, so it does
    not pass to the sum of the three stored rates.  The hit-matching
    [fit] returns on aligned labels. *)
Theorem rate_counts_sum (regression : list Q -> list Q -> result (Q * Q))
    (thr dk db : Q) (event : Event) (labels : list Z) :
  0 < n_tracks event ->
  (length labels = length event -> exists r, H.fit thr event labels = Ok r) /\
  (forall r, H.fit thr event labels = Ok r ->
     let reconstructions := Np.len (reconstructed thr event labels) in
     let ghosts := Np.len (groups labels) - Np.len (matched thr event labels) in
     let clones :=
       Np.len (matched thr event labels) - Np.len (reconstructed thr event labels) in
     (H.reconstruction_efficiency_ r
      == inject_Z reconstructions / inject_Z (n_tracks event))%Q /\
     (H.ghost_rate_ r == inject_Z ghosts / inject_Z (n_tracks event))%Q /\
     (H.clone_rate_ r == inject_Z clones / inject_Z (n_tracks event))%Q /\
     0 <= reconstructions /\ 0 <= ghosts /\ 0 <= clones /\
     reconstructions + ghosts + clones = Np.len (groups labels)) /\
  (forall r, P.fit regression dk db event labels = Ok r ->
     exists true_params params,
       Forall2 (fun g p => P.line regression (hits_of_track event g) = Ok p)
               (true_tracks event) true_params /\
       Forall2 (fun g p => P.line regression (hits_of_group event labels g) = Ok p)
               (groups labels) params /\
       let rows := match_rows dk db true_params params in
       let reconstructions := Np.len (pairings rows 0 []) in
       let ghosts := Np.len (ParamSpec.ghosts rows) in
       let clones := Np.len (groups labels) - reconstructions - ghosts in
       (P.reconstruction_efficiency_ r
        == inject_Z reconstructions / inject_Z (n_tracks event))%Q /\
       (P.ghost_rate_ r == inject_Z ghosts / inject_Z (n_tracks event))%Q /\
       (P.clone_rate_ r == inject_Z clones / inject_Z (n_tracks event))%Q /\
       0 <= reconstructions /\ 0 <= ghosts /\ 0 <= clones /\
       reconstructions + ghosts + clones = Np.len (groups labels)).
Proof.
  intros Hn; pose proof Hn as Hb; apply Z.gtb_lt in Hb.
  split; [apply HitsFacts.hits_fit_total|]; split.
  - intros r Hr; apply HitsFacts.hits_fit_Ok in Hr; destruct Hr as [-> _].
    cbn [H.reconstruction_efficiency_ H.ghost_rate_ H.clone_rate_]; cbv zeta.
    pose proof (HitsFacts.matched_le_groups thr event labels) as H1.
    pose proof (HitsFacts.reconstructed_le_matched thr event labels) as H2.
    pose proof (NpFacts.len_nonneg (reconstructed thr event labels)) as H3.
    rewrite Hb, !Qmult_1_l; repeat split; try reflexivity; lia.
  - intros r Hr; apply ParamFacts.param_fit_Ok in Hr.
    destruct Hr as (tps & ps & Ht & Hp & _ & Hlen & ->).
    exists tps, ps; split; [exact Ht|]; split; [exact Hp|].
    pose proof (ParamFacts.pairings_ghosts_le (match_rows dk db tps ps) 0 []) as H1.
    unfold match_rows at 3 in H1; rewrite length_map in H1.
    rewrite Hb; cbn [P.reconstruction_efficiency_ P.ghost_rate_ P.clone_rate_]; cbv zeta.
    rewrite <- Hlen, !Qmult_1_l; unfold Np.len in *.
    repeat split; try reflexivity; lia.
Qed.

Lemma rate_counts_sum_witness :
  exists r,
    H.fit (1 # 2) Scenario.tenth_event Scenario.tenth_labels = Ok r /\
    (H.ghost_rate_ r == 2 # 10)%Q.
Proof.
  assert (Hn : 0 < n_tracks Scenario.tenth_event) by reflexivity.
  destruct (rate_counts_sum LeastSquares.fit (1 # 2) (1 # 2) (1 # 2)
              Scenario.tenth_event Scenario.tenth_labels Hn) as (Htot & Hh & _).
  destruct (Htot eq_refl) as [r Hr].
  exists r; split; [exact Hr|].
  destruct (Hh r Hr) as (_ & Hghost & _).
  eapply Qeq_trans; [exact Hghost|vm_compute; reflexivity].
Defined.

(** * Further properties of the two scorers *)

(** ** Sizes, sums and means *)

Module SizeFacts.

Import NpFacts.

Lemma filter_length_impl {A : Type} (p q : A -> bool) (l : list A) :
  (forall x, In x l -> p x = true -> q x = true) ->
  (length (filter p l) <= length (filter q l))%nat.
Proof.
  induction l as [|h t IH]; intros Himp; cbn [filter]; [lia|].
  assert (IH' : (length (filter p t) <= length (filter q t))%nat)
    by (apply IH; intros x Hx; apply Himp; right; exact Hx).
  destruct (p h) eqn:Ep.
  - rewrite (Himp h (or_introl eq_refl) Ep); cbn [length]; lia.
  - destruct (q h); cbn [length]; lia.
Qed.

Lemma filter_length_all {A : Type} (p : A -> bool) (l : list A) :
  length (filter p l) = length l <-> forall x, In x l -> p x = true.
Proof.
  induction l as [|h t IH]; cbn [filter]; [split; [intros _ x []|reflexivity]|].
  pose proof (filter_length_le p t) as Hle.
  destruct (p h) eqn:Ep; cbn [length]; split.
  - intros Hl x [<-|Hx]; [exact Ep|apply IH; [lia|exact Hx]].
  - intros Hall; f_equal; apply IH; intros x Hx; apply Hall; right; exact Hx.
  - intros Hl; lia.
  - intros Hall; rewrite (Hall h (or_introl eq_refl)) in Ep; discriminate.
Qed.

(** [numpy.unique] keeps the length exactly of the arrays without
    repetition. *)
Lemma unique_length_NoDup (a : list Z) :
  length (Np.unique a) = length a <-> NoDup a.
Proof.
  split.
  - intros Hl; apply (@NoDup_incl_NoDup Z (Np.unique a) a).
    + apply unique_NoDup.
    + lia.
    + intros x Hx; apply unique_In; exact Hx.
  - intros Hnd; apply Nat.le_antisymm; [apply HitsFacts.unique_length|].
    apply NoDup_incl_length; [exact Hnd|].
    intros x Hx; apply unique_In; exact Hx.
Qed.

(** Two ascending lists with the same elements are equal. *)
Lemma sorted_ext (l l' : list Z) :
  StronglySorted Z.lt l -> StronglySorted Z.lt l' ->
  (forall x, In x l <-> In x l') -> l = l'.
Proof.
  intros Hs; revert l'; induction Hs as [|h t Hs IH Hf]; intros l' Hs' Hext.
  - destruct l' as [|h' t']; [reflexivity|].
    exfalso; apply (proj2 (Hext h')); left; reflexivity.
  - destruct Hs' as [|h' t' Hs' Hf'].
    + exfalso; apply (proj1 (Hext h)); left; reflexivity.
    + rewrite Forall_forall in Hf, Hf'.
      assert (Hh : h = h').
      { destruct (proj1 (Hext h) (or_introl eq_refl)) as [->|Hin]; [reflexivity|].
        destruct (proj2 (Hext h') (or_introl eq_refl)) as [->|Hin']; [reflexivity|].
        specialize (Hf _ Hin'); specialize (Hf' _ Hin); lia. }
      subst h'; f_equal; apply IH; [exact Hs'|].
      intros x; split; intros Hx.
      * destruct (proj1 (Hext x) (or_intror Hx)) as [<-|Hin]; [|exact Hin].
        specialize (Hf _ Hx); lia.
      * destruct (proj2 (Hext x) (or_intror Hx)) as [<-|Hin]; [|exact Hin].
        specialize (Hf' _ Hx); lia.
Qed.

Lemma unique_sorted_id (l : list Z) : StronglySorted Z.lt l -> Np.unique l = l.
Proof.
  intros Hs; apply sorted_ext; [apply unique_sorted|exact Hs|].
  intros x; apply unique_In.
Qed.

Lemma sum_le_bound (f : Z -> Z) (c : Z) (l : list Z) :
  (forall x, In x l -> f x <= c) -> Np.sum (map f l) <= c * Np.len l.
Proof.
  induction l as [|h t IH]; intros Hb; [unfold Np.len; cbn; lia|].
  rewrite len_cons; cbn [map]; unfold Np.sum in *; cbn [fold_right].
  assert (f h <= c) by (apply Hb; left; reflexivity).
  assert (fold_right Z.add 0 (map f t) <= c * Np.len t)
    by (apply IH; intros x Hx; apply Hb; right; exact Hx).
  lia.
Qed.

Lemma qsum_bounds (l : list Q) :
  Forall (fun e => 0 < e /\ e <= 1)%Q l ->
  (0 <= Np.qsum l /\ Np.qsum l <= inject_Z (Np.len l))%Q /\
  (l <> [] -> (0 < Np.qsum l)%Q).
Proof.
  induction 1 as [|e t [He0 He1] Ht IH]; cbn [Np.qsum fold_right].
  - split; [split; [apply Qle_refl|unfold Np.len; cbn; apply Qle_refl]|congruence].
  - fold (Np.qsum t); destruct IH as [[H0 H1] _].
    rewrite len_cons, inject_Z_plus; split; [split|intros _].
    + apply Qlt_le_weak in He0.
      rewrite <- (Qplus_0_l 0); apply Qplus_le_compat; assumption.
    + apply Qplus_le_compat; assumption.
    + rewrite <- (Qplus_0_l 0); apply Qplus_lt_le_compat; assumption.
Qed.

End SizeFacts.

(** ** Quotients of counts *)

Module QuotFacts.

Lemma inv_pos (n : Z) : 0 < n -> (0 < / inject_Z n)%Q.
Proof.
  intros Hn; apply Qinv_lt_0_compat.
  change 0%Q with (inject_Z 0); rewrite <- Zlt_Qlt; exact Hn.
Qed.

Lemma quot_le (a b n : Z) :
  0 < n -> (inject_Z a / inject_Z n <= inject_Z b / inject_Z n)%Q <-> a <= b.
Proof.
  intros Hn; unfold Qdiv; rewrite (Qmult_le_r _ _ _ (inv_pos n Hn)), <- Zle_Qle; tauto.
Qed.

Lemma quot_eq (a b n : Z) :
  0 < n -> (inject_Z a / inject_Z n == inject_Z b / inject_Z n)%Q <-> a = b.
Proof.
  intros Hn; unfold Qdiv; rewrite Qmult_inj_r, inject_Z_injective; [tauto|].
  intro H; pose proof (inv_pos n Hn) as Hp; rewrite H in Hp; discriminate Hp.
Qed.

Lemma quot_zero (n : Z) : (inject_Z 0 / inject_Z n == 0)%Q.
Proof. unfold Qdiv; apply Qmult_0_l. Qed.

Lemma quot_one (n : Z) : 0 < n -> (inject_Z n / inject_Z n == 1)%Q.
Proof.
  intros Hn; apply Qmult_inv_r.
  change 0%Q with (inject_Z 0); rewrite inject_Z_injective; lia.
Qed.

End QuotFacts.

(** ** The groups of the hit-matching scorer *)

Module HitsMore.

Import HitsSpec NpFacts.

Lemma matched_In (thr : Q) (event : Event) (labels : list Z) (g : Z) :
  In g (matched thr event labels) <->
  In g (groups labels) /\
  Qle_bool thr (efficiency_of (TrackID_values event) labels g) = true /\
  dominant_of (TrackID_values event) labels g <> -1.
Proof.
  unfold matched, passing, is_label; rewrite !filter_In, negb_true_iff, Z.eqb_neq; tauto.
Qed.

Lemma reconstructed_In (thr : Q) (event : Event) (labels : list Z) (v : Z) :
  In v (reconstructed thr event labels) <->
  v <> -1 /\
  exists g, In g (groups labels) /\
            Qle_bool thr (efficiency_of (TrackID_values event) labels g) = true /\
            dominant_of (TrackID_values event) labels g = v.
Proof.
  unfold reconstructed; rewrite unique_In, in_map_iff; split.
  - intros (g & <- & Hg); apply matched_In in Hg; destruct Hg as (Hg & He & Hd).
    split; [exact Hd|exists g; auto].
  - intros (Hv & g & Hg & He & <-); exists g; split; [reflexivity|].
    apply matched_In; auto.
Qed.

(** The efficiency of a group is positive. *)
Lemma group_efficiency_pos (true_labels labels : list Z) (g : Z) (eff : Q) (d : Z) :
  H.group true_labels labels g = Ok (eff, d) -> (0 < eff)%Q.
Proof.
  intros Hg; apply HitsFacts.group_Ok in Hg; destruct Hg as (_ & Hne & (Hin & _) & ->).
  pose proof (count_bounds d (track_of true_labels labels g)) as Hb.
  apply (proj2 (count_pos_In _ _)) in Hin.
  rewrite Qmult_1_l; apply Qlt_shift_div_l.
  - change 0%Q with (inject_Z 0); rewrite <- Zlt_Qlt; lia.
  - rewrite Qmult_0_l; change 0%Q with (inject_Z 0); rewrite <- Zlt_Qlt; exact Hin.
Qed.

End HitsMore.

(** X1: in the hit-matching scorer, with [n_tracks > 0],
    [reconstruction_efficiency_] is the number of TrackIDs other than
    [-1] that are the dominant TrackID of some group whose efficiency
    reaches the threshold, over [n_tracks], every TrackID counted once;
    and [clone_rate_] is the number of such groups beyond one per
    TrackID, over [n_tracks]. *)
Theorem hits_reconstruction_and_clone (thr : Q) (event : Event) (labels : list Z) :
  0 < n_tracks event ->
  (length labels = length event -> exists r, H.fit thr event labels = Ok r) /\
  (forall r, H.fit thr event labels = Ok r ->
     NoDup (reconstructed thr event labels) /\
     (forall v, In v (reconstructed thr event labels) <->
        v <> -1 /\
        exists g, In g (groups labels) /\
                  Qle_bool thr (efficiency_of (TrackID_values event) labels g) = true /\
                  dominant_of (TrackID_values event) labels g = v) /\
     (forall g, In g (matched thr event labels) <->
        In g (groups labels) /\
        Qle_bool thr (efficiency_of (TrackID_values event) labels g) = true /\
        dominant_of (TrackID_values event) labels g <> -1) /\
     (H.reconstruction_efficiency_ r
      == inject_Z (Np.len (reconstructed thr event labels)) / inject_Z (n_tracks event))%Q /\
     (H.clone_rate_ r
      == inject_Z (Np.len (matched thr event labels)
                   - Np.len (reconstructed thr event labels))
         / inject_Z (n_tracks event))%Q).
Proof.
  intros Hn; split; [apply HitsFacts.hits_fit_total|].
  intros r Hr; apply HitsFacts.hits_fit_Ok in Hr; destruct Hr as [-> _].
  split; [apply NpFacts.unique_NoDup|].
  split; [apply HitsMore.reconstructed_In|].
  split; [apply HitsMore.matched_In|].
  cbn [H.reconstruction_efficiency_ H.clone_rate_].
  apply Z.gtb_lt in Hn; rewrite Hn, Qmult_1_l; split; reflexivity.
Qed.

Lemma hits_reconstruction_and_clone_witness :
  exists r,
    H.fit (1 # 2) Scenario.split_event Scenario.split_labels = Ok r /\
    (H.reconstruction_efficiency_ r == 1)%Q /\ (H.clone_rate_ r == 1)%Q.
Proof.
  assert (Hn : 0 < n_tracks Scenario.split_event) by reflexivity.
  destruct (hits_reconstruction_and_clone (1 # 2)
              Scenario.split_event Scenario.split_labels Hn) as [Htot Hrate].
  destruct (Htot eq_refl) as [r Hr].
  exists r; split; [exact Hr|].
  destruct (Hrate r Hr) as (_ & _ & _ & Hrec & Hclone); split.
  - eapply Qeq_trans; [exact Hrec|vm_compute; reflexivity].
  - eapply Qeq_trans; [exact Hclone|vm_compute; reflexivity].
Defined.

Module GroupsMore.

Import HitsSpec NpFacts.

Lemma no_label_no_group (labels : list Z) :
  (forall l, In l labels -> l = -1) -> groups labels = [].
Proof.
  intros Hall; destruct (groups labels) as [|g gs] eqn:E; [reflexivity|].
  assert (Hg : In g (groups labels)) by (rewrite E; left; reflexivity).
  apply HitsFacts.groups_In in Hg; destruct Hg as [Hin Hne].
  exfalso; apply Hne, Hall; exact Hin.
Qed.

Lemma quot_cross (c len k : Z) :
  0 < len -> 0 < k -> len <= c * k ->
  (inject_Z 1 / inject_Z k <= 1 * inject_Z c / inject_Z len)%Q.
Proof.
  intros Hlen Hk Hle; rewrite Qmult_1_l.
  assert (Hl0 : ~ (inject_Z len == 0)%Q)
    by (change 0%Q with (inject_Z 0); rewrite inject_Z_injective; lia).
  apply Qle_shift_div_r; [change 0%Q with (inject_Z 0); rewrite <- Zlt_Qlt; exact Hk|].
  setoid_replace (inject_Z c / inject_Z len * inject_Z k)%Q
    with (inject_Z (c * k) / inject_Z len)%Q
    by (rewrite inject_Z_mult; field; exact Hl0).
  apply Qle_shift_div_l; [change 0%Q with (inject_Z 0); rewrite <- Zlt_Qlt; exact Hlen|].
  rewrite Qmult_1_l, <- Zle_Qle; exact Hle.
Qed.

(** The hits of a group are at most the count of the dominant TrackID
    times the number of distinct TrackIDs. *)
Lemma dominant_count_bound (track : list Z) (d : Z) :
  is_dominant track d ->
  Np.len track <= Np.count d track * Np.len (Np.unique track).
Proof.
  intros (_ & Hmax & _).
  rewrite <- (sum_counts track (Np.unique track)).
  - apply SizeFacts.sum_le_bound; intros x _; apply Hmax.
  - apply unique_NoDup.
  - intros x Hx; apply unique_In; exact Hx.
Qed.

End GroupsMore.

(** X2: when no label differs from [-1] (an empty array of labels
    included), the hit-matching [fit] returns, whatever the length of
    the labels, with [efficiencies_] empty, [avg_efficiency_] NaN and
    the three rates zero; the parameter-matching [fit] still runs the
    regression of every true track: it returns when these return, and
    whenever it returns its three rates are zero. *)
Theorem no_group_no_rate (regression : list Q -> list Q -> result (Q * Q))
    (thr dk db : Q) (event : Event) (labels : list Z) :
  (forall l, In l labels -> l = -1) ->
  (exists rh,
     H.fit thr event labels = Ok rh /\
     H.efficiencies_ rh = [] /\ H.avg_efficiency_ rh = None /\
     (H.reconstruction_efficiency_ rh == 0 /\ H.ghost_rate_ rh == 0 /\
      H.clone_rate_ rh == 0)%Q) /\
  (returns_on_tracks regression event ->
   exists rp, P.fit regression dk db event labels = Ok rp) /\
  (forall rp, P.fit regression dk db event labels = Ok rp ->
     (P.reconstruction_efficiency_ rp == 0 /\ P.ghost_rate_ rp == 0 /\
      P.clone_rate_ rp == 0)%Q).
Proof.
  intros Hall; pose proof (GroupsMore.no_label_no_group labels Hall) as Hg.
  split; [|split].
  - destruct (HitsFacts.hits_fit_no_group thr event labels Hg) as [rh Hh].
    exists rh; split; [exact Hh|].
    apply HitsFacts.hits_fit_Ok in Hh; destruct Hh as [-> _].
    unfold reconstructed, matched, passing; rewrite Hg.
    cbn [H.efficiencies_ H.avg_efficiency_ H.reconstruction_efficiency_ H.ghost_rate_
         H.clone_rate_ map filter Np.mean].
    split; [reflexivity|]; split; [reflexivity|].
    destruct (n_tracks event >? 0); repeat split; try reflexivity; vm_compute; reflexivity.
  - intros Hret; apply ParamFacts.param_fit_no_group; assumption.
  - intros rp Hp; apply ParamFacts.param_fit_Ok in Hp.
    destruct Hp as (tps & ps & _ & Hps & _ & _ & ->).
    rewrite Hg in Hps; inversion Hps; subst ps.
    destruct (n_tracks event >? 0);
      cbn [P.reconstruction_efficiency_ P.ghost_rate_ P.clone_rate_];
      repeat split; try reflexivity; vm_compute; reflexivity.
Qed.

Lemma no_group_no_rate_witness :
  exists rh,
    H.fit (1 # 2) Scenario.noise_event [-1; -1] = Ok rh /\
    H.avg_efficiency_ rh = None.
Proof.
  destruct (no_group_no_rate LeastSquares.fit (1 # 2) (1 # 2) (1 # 2)
              Scenario.noise_event [-1; -1]) as ((rh & Hh & _ & Havg & _) & _).
  - intros l [<-|[<-|[]]]; reflexivity.
  - exists rh; auto.
Defined.

(** X3: in the hit-matching scorer [avg_efficiency_] is NaN exactly when
    there is no group (no label other than [-1]); with a group it is a
    number above 0 and at most 1. *)
Theorem avg_efficiency_range (thr : Q) (event : Event) (labels : list Z) (r : H.t) :
  H.fit thr event labels = Ok r ->
  (groups labels = [] /\ H.avg_efficiency_ r = None) \/
  (groups labels <> [] /\
   exists q, H.avg_efficiency_ r = Some q /\ (0 < q /\ q <= 1)%Q).
Proof.
  intros Hr; apply HitsFacts.hits_fit_Ok in Hr; destruct Hr as [-> Hall].
  cbn [H.avg_efficiency_].
  remember (groups labels) as gl eqn:Eg.
  destruct gl as [|g gs]; [left; split; reflexivity|].
  right; split; [discriminate|].
  set (es := map (efficiency_of (TrackID_values event) labels) (g :: gs)).
  assert (Hes : Forall (fun e => 0 < e /\ e <= 1)%Q es).
  { apply Forall_forall; intros e He; apply in_map_iff in He.
    destruct He as (g' & <- & Hg'); destruct (Hall g' Hg') as (eff & d & Hgrp).
    destruct (HitsFacts.efficiency_of_Ok _ _ _ _ _ Hgrp) as [-> _].
    split; [eapply HitsMore.group_efficiency_pos; exact Hgrp|].
    eapply HitsFacts.group_efficiency_bounds; exact Hgrp. }
  assert (Hne : es <> []) by (unfold es; cbn [map]; discriminate).
  destruct (SizeFacts.qsum_bounds es Hes) as [[_ Hle] Hpos]; specialize (Hpos Hne).
  assert (Hlen : (0 < inject_Z (Np.len es))%Q).
  { change 0%Q with (inject_Z 0); rewrite <- Zlt_Qlt.
    destruct es; [congruence|rewrite NpFacts.len_cons].
    pose proof (NpFacts.len_nonneg es); lia. }
  exists (Np.qsum es / inject_Z (Np.len es))%Q; split.
  - unfold Np.mean; destruct es; [congruence|reflexivity].
  - split.
    + apply Qlt_shift_div_l; [exact Hlen|rewrite Qmult_0_l; exact Hpos].
    + apply Qle_shift_div_r; [exact Hlen|rewrite Qmult_1_l; exact Hle].
Qed.

Lemma avg_efficiency_range_witness :
  exists r q,
    H.fit (1 # 2) Scenario.event Scenario.labels = Ok r /\
    H.avg_efficiency_ r = Some q /\ (0 < q /\ q <= 1)%Q.
Proof.
  destruct (HitsFacts.hits_fit_total (1 # 2) Scenario.event Scenario.labels eq_refl)
    as [r Hr].
  destruct (avg_efficiency_range (1 # 2) Scenario.event Scenario.labels r Hr)
    as [[Hg _]|[_ (q & Hq & Hb)]].
  - vm_compute in Hg; discriminate Hg.
  - exists r, q; auto.
Defined.

(** X4: the efficiency of a group whose hits carry [k] distinct TrackIDs
    ([-1] counted as one) is at least [1/k]; so a group that mixes at
    most two TrackIDs reaches the threshold [0.5] of a scorer built
    without argument. *)
Theorem efficiency_at_least_inverse (true_labels labels : list Z) (g : Z)
    (eff : Q) (d : Z) :
  H.group true_labels labels g = Ok (eff, d) ->
  let k := Np.len (Np.unique (track_of true_labels labels g)) in
  0 < k /\
  (inject_Z 1 / inject_Z k <= eff)%Q /\
  (k <= 2 -> Qle_bool default_eff_threshold eff = true).
Proof.
  intros Hg k; apply HitsFacts.group_Ok in Hg; destruct Hg as (_ & Hne & Hdom & ->).
  pose proof (GroupsMore.dominant_count_bound _ _ Hdom) as Hb; fold k in Hb.
  assert (Hlen : 0 < Np.len (track_of true_labels labels g)).
  { destruct (track_of true_labels labels g); [congruence|].
    rewrite NpFacts.len_cons; pose proof (NpFacts.len_nonneg l); lia. }
  assert (Hk : 0 < k).
  { pose proof (NpFacts.count_bounds d (track_of true_labels labels g)).
    pose proof (NpFacts.len_nonneg (Np.unique (track_of true_labels labels g))).
    fold k in H0; nia. }
  assert (Hq : (inject_Z 1 / inject_Z k
                <= 1 * inject_Z (Np.count d (track_of true_labels labels g))
                   / inject_Z (Np.len (track_of true_labels labels g)))%Q)
    by (apply GroupsMore.quot_cross; assumption).
  split; [exact Hk|]; split; [exact Hq|].
  intros Hk2; apply Qle_bool_iff; eapply Qle_trans; [|exact Hq].
  assert (Hcases : k = 1 \/ k = 2) by lia.
  destruct Hcases as [->| ->]; vm_compute; discriminate.
Qed.

Lemma efficiency_at_least_inverse_witness :
  exists eff d,
    H.group [1; -1] [6; 6] 6 = Ok (eff, d) /\
    Qle_bool default_eff_threshold eff = true.
Proof.
  destruct (HitsFacts.group_total [1; -1] [6; 6] 6 eq_refl) as (eff & d & Hg);
    [left; reflexivity|].
  exists eff, d; split; [exact Hg|].
  destruct (efficiency_at_least_inverse [1; -1] [6; 6] 6 eff d Hg) as (_ & _ & Hthr).
  apply Hthr; vm_compute; discriminate.
Defined.

(** ** Labels that repeat the TrackIDs *)

Module PerfectFacts.

Import HitsSpec ParamSpec NpFacts.

Lemma filter_all {A : Type} (p : A -> bool) (l : list A) :
  (forall x, In x l -> p x = true) -> filter p l = l.
Proof.
  induction l as [|h t IH]; intros Hall; cbn [filter]; [reflexivity|].
  rewrite (Hall h (or_introl eq_refl)), IH; [reflexivity|].
  intros x Hx; apply Hall; right; exact Hx.
Qed.

(** With the TrackIDs as labels, the hits of a group all carry the label
    of the group. *)
Lemma track_of_self (true_labels : list Z) (g x : Z) :
  In x (track_of true_labels true_labels g) -> x = g.
Proof.
  unfold track_of; rewrite mask_map_filter, filter_In.
  intros [_ Hx]; apply Z.eqb_eq; exact Hx.
Qed.

Lemma group_self (true_labels : list Z) (g : Z) (eff : Q) (d : Z) :
  H.group true_labels true_labels g = Ok (eff, d) -> (eff == 1)%Q /\ d = g.
Proof.
  intros Hg; apply HitsFacts.group_Ok in Hg; destruct Hg as (_ & Hne & (Hin & _) & ->).
  pose proof (track_of_self true_labels g) as Hsame.
  rewrite (Hsame d Hin), (count_all g _ Hsame); split; [|reflexivity].
  apply RateFacts.rate_self.
  destruct (track_of true_labels true_labels g); [congruence|].
  rewrite len_cons; pose proof (len_nonneg l); lia.
Qed.

Lemma hits_of_group_self (event : Event) (g : Z) :
  hits_of_group event (TrackID_values event) g = hits_of_track event g.
Proof. unfold hits_of_group, hits_of_track, TrackID_values; rewrite map_map; reflexivity. Qed.

Lemma Forall2_functional {A B : Type} (f : A -> result B) (l : list A) (u v : list B) :
  Forall2 (fun a b => f a = Ok b) l u -> Forall2 (fun a b => f a = Ok b) l v -> u = v.
Proof.
  intros Hu; revert v; induction Hu as [|a b l u Hab Hu IH]; intros v Hv;
    inversion Hv; subst; [reflexivity|].
  f_equal; [congruence|apply IH; assumption].
Qed.

Lemma close_self (dk db : Q) (p : Q * Q) :
  (0 <= dk)%Q -> (0 <= db)%Q -> P.close dk db p p = true.
Proof.
  intros Hk Hb; unfold P.close; apply andb_true_iff; split; apply Qle_bool_iff.
  - setoid_replace (fst p - fst p)%Q with 0%Q by ring; exact Hk.
  - setoid_replace (snd p - snd p)%Q with 0%Q by ring; exact Hb.
Qed.

(** When the tracks before [g0] are taken, the track [g0] is free and
    matches, it is the first free matching track. *)
Lemma first_free_at (row : list bool) (k g0 : nat) (used_tracks : list nat) :
  (forall j, (j < g0)%nat -> taken j used_tracks = true) ->
  taken g0 used_tracks = false ->
  (k <= g0)%nat -> nth (g0 - k) row false = true ->
  first_free row k used_tracks = Some g0.
Proof.
  intros Hbefore Hfree; revert k; induction row as [|m row IH]; intros k Hk Hn.
  - destruct (g0 - k)%nat; discriminate Hn.
  - cbn [first_free]; destruct (Nat.eq_dec k g0) as [->|Hne].
    + rewrite Nat.sub_diag in Hn; cbn [nth] in Hn; rewrite Hn, Hfree; reflexivity.
    + rewrite (Hbefore k) by lia; rewrite andb_false_r.
      apply IH; [lia|].
      replace (g0 - k)%nat with (S (g0 - S k)) in Hn by lia; exact Hn.
Qed.

(** When every group matches the true track of its own index, every
    group is paired. *)
Lemma pairings_diagonal (rows : list (list bool)) (g0 : nat) (used_tracks : list nat) :
  (forall j, taken j used_tracks = true <-> (j < g0)%nat) ->
  (forall k row, nth_error rows k = Some row -> nth (g0 + k) row false = true) ->
  length (pairings rows g0 used_tracks) = length rows.
Proof.
  revert g0 used_tracks; induction rows as [|row rest IH]; intros g0 used_tracks Ht Hd;
    cbn [pairings]; [reflexivity|].
  rewrite (first_free_at row 0 g0 used_tracks).
  - cbn [length]; f_equal; apply IH.
    + intros j; unfold taken; cbn [existsb]; fold (taken j used_tracks).
      rewrite orb_true_iff, Nat.eqb_eq, Ht; lia.
    + intros k r Hr; replace (S g0 + k)%nat with (g0 + S k)%nat by lia.
      apply Hd; exact Hr.
  - intros j Hj; apply Ht; exact Hj.
  - destruct (taken g0 used_tracks) eqn:E; [|reflexivity].
    apply Ht in E; lia.
  - lia.
  - rewrite Nat.sub_0_r; rewrite <- (Nat.add_0_r g0) at 1; apply Hd; reflexivity.
Qed.

Lemma pairings_self (dk db : Q) (ps : list (Q * Q)) :
  (0 <= dk)%Q -> (0 <= db)%Q ->
  length (pairings (match_rows dk db ps ps) 0 []) = length ps /\
  length (ghosts (match_rows dk db ps ps)) = 0%nat.
Proof.
  intros Hk Hb.
  assert (Hp : length (pairings (match_rows dk db ps ps) 0 [])
               = length (match_rows dk db ps ps)).
  { apply pairings_diagonal.
    - intros j; unfold taken; cbn [existsb]; split; [discriminate|lia].
    - intros k row Hrow; cbn [plus].
      destruct (nth_error ps k) as [p|] eqn:Ep.
      + pose proof (ParamFacts.matches_at_close dk db ps ps k k p p Ep Ep) as Hm.
        unfold matches_at in Hm; rewrite (nth_error_nth _ _ _ Hrow) in Hm.
        rewrite Hm; apply close_self; assumption.
      + apply nth_error_None in Ep.
        assert (k < length (match_rows dk db ps ps))%nat
          by (apply nth_error_Some; congruence).
        unfold match_rows in H; rewrite length_map in H; lia. }
  pose proof (ParamFacts.pairings_ghosts_le (match_rows dk db ps ps) 0 []) as Hle.
  split; [rewrite Hp; unfold match_rows; apply length_map|lia].
Qed.

End PerfectFacts.

(** X5: in the hit-matching scorer, when the labels are the TrackIDs
    themselves, the event has a true track and the threshold is at most
    1, [fit] returns, every efficiency is 1, the reconstruction
    efficiency is 1 and the ghost and clone rates are 0. *)
Theorem hits_perfect_labels (thr : Q) (event : Event) :
  (thr <= 1)%Q -> 0 < n_tracks event ->
  exists r,
    H.fit thr event (TrackID_values event) = Ok r /\
    Forall (fun e => e == 1)%Q (H.efficiencies_ r) /\
    (H.reconstruction_efficiency_ r == 1 /\ H.ghost_rate_ r == 0 /\
     H.clone_rate_ r == 0)%Q.
Proof.
  intros Hthr Hn.
  destruct (HitsFacts.hits_fit_total thr event (TrackID_values event)) as [r Hr];
    [unfold TrackID_values; apply length_map|].
  exists r; split; [exact Hr|].
  apply HitsFacts.hits_fit_Ok in Hr; destruct Hr as [-> Hall].
  set (tl := TrackID_values event) in *.
  assert (Hself : forall g, In g (groups tl) ->
            (efficiency_of tl tl g == 1)%Q /\ dominant_of tl tl g = g).
  { intros g Hg; destruct (Hall g Hg) as (eff & d & Hgrp).
    destruct (HitsFacts.efficiency_of_Ok _ _ _ _ _ Hgrp) as [-> ->].
    exact (PerfectFacts.group_self tl g eff d Hgrp). }
  assert (Hpass : passing thr event tl = groups tl).
  { unfold passing; fold tl; apply PerfectFacts.filter_all; intros g Hg.
    apply Qle_bool_iff; rewrite (proj1 (Hself g Hg)); exact Hthr. }
  assert (Hmat : matched thr event tl = groups tl).
  { unfold matched; rewrite Hpass; fold tl; apply PerfectFacts.filter_all; intros g Hg.
    rewrite (proj2 (Hself g Hg)).
    unfold groups in Hg; apply filter_In in Hg; tauto. }
  assert (Hrec : reconstructed thr event tl = groups tl).
  { unfold reconstructed; rewrite Hmat; fold tl.
    rewrite (map_ext_in _ (fun g => g)) by (intros g Hg; apply Hself; exact Hg).
    rewrite map_id; apply SizeFacts.unique_sorted_id, HitsFacts.groups_sorted. }
  assert (Hlen : Np.len (groups tl) = n_tracks event)
    by (rewrite HitsFacts.n_tracks_eq; reflexivity).
  cbn [H.efficiencies_ H.reconstruction_efficiency_ H.ghost_rate_ H.clone_rate_].
  split.
  { apply Forall_forall; intros e He; apply in_map_iff in He.
    destruct He as (g & <- & Hg); apply Hself; exact Hg. }
  pose proof Hn as Hb; apply Z.gtb_lt in Hb; rewrite Hb.
  rewrite Hrec, Hmat, Hlen, Z.sub_diag; split; [|split].
  - apply RateFacts.rate_self; exact Hn.
  - rewrite Qmult_1_l; apply QuotFacts.quot_zero.
  - apply QuotFacts.quot_zero.
Qed.

Lemma hits_perfect_labels_witness :
  exists r,
    H.fit (1 # 2) Scenario.event (TrackID_values Scenario.event) = Ok r /\
    (H.reconstruction_efficiency_ r == 1)%Q.
Proof.
  destruct (hits_perfect_labels (1 # 2) Scenario.event) as (r & Hr & _ & Hrec & _).
  - vm_compute; discriminate.
  - reflexivity.
  - exists r; auto.
Defined.

(** X6: in the parameter-matching scorer, when the labels are the
    TrackIDs themselves, the event has a true track, the tolerances are
    not negative and the regression returns a slope and an intercept
    that are numbers on every true track, [fit] returns, the
    reconstruction efficiency is 1 and the ghost and clone rates are
    0. *)
Theorem param_perfect_labels (regression : list Q -> list Q -> result (Q * Q))
    (dk db : Q) (event : Event) :
  (0 <= dk)%Q -> (0 <= db)%Q -> 0 < n_tracks event ->
  returns_on_tracks regression event ->
  exists r,
    P.fit regression dk db event (TrackID_values event) = Ok r /\
    (P.reconstruction_efficiency_ r == 1 /\ P.ghost_rate_ r == 0 /\
     P.clone_rate_ r == 0)%Q.
Proof.
  intros Hk Hb Hn Hret.
  destruct (ParamFacts.param_fit_total regression dk db event (TrackID_values event))
    as [r Hr]; [unfold TrackID_values; apply length_map|exact Hret| |].
  { intros g Hg; rewrite PerfectFacts.hits_of_group_self; apply Hret; exact Hg. }
  exists r; split; [exact Hr|].
  apply ParamFacts.param_fit_Ok in Hr.
  destruct Hr as (tps & ps & Ht & Hp & Hlt & _ & ->).
  assert (Heq : tps = ps).
  { apply (PerfectFacts.Forall2_functional
             (fun g => P.line regression (hits_of_track event g)) (true_tracks event));
      [exact Ht|].
    eapply Forall2_impl; [|exact Hp].
    intros g p Hl; cbn beta in *; rewrite <- PerfectFacts.hits_of_group_self; exact Hl. }
  subst tps.
  destruct (PerfectFacts.pairings_self dk db ps Hk Hb) as [Hpair Hgh].
  pose proof Hn as Hgt; apply Z.gtb_lt in Hgt; rewrite Hgt.
  cbn [P.reconstruction_efficiency_ P.ghost_rate_ P.clone_rate_].
  unfold Np.len in *; rewrite Hpair, Hgh, Hlt, Z.sub_diag; cbn [Z.of_nat Z.sub Z.opp].
  split; [|split].
  - apply RateFacts.rate_self; exact Hn.
  - rewrite Qmult_1_l; apply QuotFacts.quot_zero.
  - rewrite Qmult_1_l; apply QuotFacts.quot_zero.
Qed.

Lemma param_perfect_labels_witness :
  exists r,
    P.fit LeastSquares.fit (1 # 10) (1 # 10)
          Scenario.lines_event (TrackID_values Scenario.lines_event) = Ok r /\
    (P.reconstruction_efficiency_ r == 1)%Q.
Proof.
  destruct (param_perfect_labels LeastSquares.fit (1 # 10) (1 # 10) Scenario.lines_event)
    as (r & Hr & Hrec & _).
  - vm_compute; discriminate.
  - vm_compute; discriminate.
  - reflexivity.
  - apply ParamFacts.least_squares_tracks.
  - exists r; auto.
Defined.

(** ** The threshold of the hit-matching scorer *)

Module ThresholdFacts.

Import HitsSpec NpFacts.

Lemma groups_NoDup (labels : list Z) : NoDup (groups labels).
Proof. apply sorted_NoDup, HitsFacts.groups_sorted. Qed.

Lemma matched_NoDup (thr : Q) (event : Event) (labels : list Z) :
  NoDup (matched thr event labels).
Proof. unfold matched, passing; do 2 apply NoDup_filter; apply groups_NoDup. Qed.

Lemma matched_incl_groups (thr : Q) (event : Event) (labels : list Z) :
  incl (matched thr event labels) (groups labels).
Proof. intros g Hg; apply HitsMore.matched_In in Hg; tauto. Qed.

(** A reconstructed TrackID is a true track of the event. *)
Lemma reconstructed_incl (thr : Q) (event : Event) (labels : list Z) :
  (forall g, In g (groups labels) ->
     exists eff d, H.group (TrackID_values event) labels g = Ok (eff, d)) ->
  incl (reconstructed thr event labels) (true_tracks event).
Proof.
  intros Hall v Hv; apply HitsMore.reconstructed_In in Hv.
  destruct Hv as (Hne & g & Hg & _ & <-).
  destruct (Hall g Hg) as (eff & d & Hgrp).
  destruct (HitsFacts.efficiency_of_Ok _ _ _ _ _ Hgrp) as [_ Hd].
  apply HitsFacts.group_Ok in Hgrp; destruct Hgrp as (_ & _ & (Hin & _) & _).
  rewrite Hd in *; unfold true_tracks; apply filter_In; split.
  - apply unique_In; eapply mask_In; exact Hin.
  - unfold is_label; apply negb_true_iff, Z.eqb_neq; exact Hne.
Qed.

Lemma true_tracks_len (event : Event) : Np.len (true_tracks event) = n_tracks event.
Proof. rewrite HitsFacts.n_tracks_eq; reflexivity. Qed.

(** A group that reaches a threshold reaches every lower one. *)
Lemma passes_lower (thr1 thr2 e : Q) :
  (thr1 <= thr2)%Q -> Qle_bool thr2 e = true -> Qle_bool thr1 e = true.
Proof.
  intros Hle H2; apply Qle_bool_iff; apply Qle_bool_iff in H2.
  eapply Qle_trans; eassumption.
Qed.

Lemma matched_mono (thr1 thr2 : Q) (event : Event) (labels : list Z) :
  (thr1 <= thr2)%Q ->
  Np.len (matched thr2 event labels) <= Np.len (matched thr1 event labels).
Proof.
  intros Hle; unfold Np.len; apply inj_le, NoDup_incl_length; [apply matched_NoDup|].
  intros g Hg; apply HitsMore.matched_In in Hg; destruct Hg as (Hg & He & Hd).
  apply HitsMore.matched_In; split; [exact Hg|]; split; [|exact Hd].
  eapply passes_lower; eassumption.
Qed.

Lemma reconstructed_mono (thr1 thr2 : Q) (event : Event) (labels : list Z) :
  (thr1 <= thr2)%Q ->
  Np.len (reconstructed thr2 event labels) <= Np.len (reconstructed thr1 event labels).
Proof.
  intros Hle; unfold Np.len; apply inj_le, NoDup_incl_length; [apply unique_NoDup|].
  intros v Hv; apply HitsMore.reconstructed_In in Hv.
  destruct Hv as (Hne & g & Hg & He & Hd).
  apply HitsMore.reconstructed_In; split; [exact Hne|].
  exists g; split; [exact Hg|]; split; [|exact Hd].
  eapply passes_lower; eassumption.
Qed.

End ThresholdFacts.

(** X7: in the hit-matching scorer, raising the threshold changes no
    efficiency, cannot raise the reconstruction efficiency and cannot
    lower the ghost rate. *)
Theorem threshold_monotone (thr1 thr2 : Q) (event : Event) (labels : list Z)
    (r1 r2 : H.t) :
  (thr1 <= thr2)%Q ->
  H.fit thr1 event labels = Ok r1 -> H.fit thr2 event labels = Ok r2 ->
  H.efficiencies_ r2 = H.efficiencies_ r1 /\
  H.avg_efficiency_ r2 = H.avg_efficiency_ r1 /\
  (H.reconstruction_efficiency_ r2 <= H.reconstruction_efficiency_ r1)%Q /\
  (H.ghost_rate_ r1 <= H.ghost_rate_ r2)%Q.
Proof.
  intros Hle H1 H2.
  apply HitsFacts.hits_fit_Ok in H1; destruct H1 as [-> _].
  apply HitsFacts.hits_fit_Ok in H2; destruct H2 as [-> _].
  cbn [H.efficiencies_ H.avg_efficiency_ H.reconstruction_efficiency_ H.ghost_rate_].
  split; [reflexivity|]; split; [reflexivity|].
  pose proof (ThresholdFacts.matched_mono thr1 thr2 event labels Hle) as Hm.
  pose proof (ThresholdFacts.reconstructed_mono thr1 thr2 event labels Hle) as Hrec.
  destruct (n_tracks event >? 0) eqn:Hn; [|split; apply Qle_refl].
  apply Z.gtb_lt in Hn; rewrite !Qmult_1_l.
  split; apply QuotFacts.quot_le; [exact Hn|exact Hrec|exact Hn|lia].
Qed.

Lemma threshold_monotone_witness :
  exists r1 r2,
    H.fit (1 # 2) Scenario.event Scenario.labels = Ok r1 /\
    H.fit (3 # 5) Scenario.event Scenario.labels = Ok r2 /\
    (H.ghost_rate_ r1 <= H.ghost_rate_ r2)%Q.
Proof.
  destruct (HitsFacts.hits_fit_total (1 # 2) Scenario.event Scenario.labels eq_refl)
    as [r1 H1].
  destruct (HitsFacts.hits_fit_total (3 # 5) Scenario.event Scenario.labels eq_refl)
    as [r2 H2].
  exists r1, r2; split; [exact H1|]; split; [exact H2|].
  apply (threshold_monotone (1 # 2) (3 # 5) Scenario.event Scenario.labels r1 r2);
    [vm_compute; discriminate|exact H1|exact H2].
Defined.

(** X8: in the hit-matching scorer, with [n_tracks > 0] and a threshold
    above 1, no group reconstructs a track: the reconstruction
    efficiency and the clone rate are 0 and the ghost rate is the number
    of groups over [n_tracks]. *)
Theorem threshold_above_one (thr : Q) (event : Event) (labels : list Z) (r : H.t) :
  (1 < thr)%Q -> 0 < n_tracks event ->
  H.fit thr event labels = Ok r ->
  (H.reconstruction_efficiency_ r == 0)%Q /\ (H.clone_rate_ r == 0)%Q /\
  (H.ghost_rate_ r == inject_Z (Np.len (groups labels)) / inject_Z (n_tracks event))%Q.
Proof.
  intros Hthr Hn Hr; apply HitsFacts.hits_fit_Ok in Hr; destruct Hr as [-> Hall].
  assert (Hpass : passing thr event labels = []).
  { unfold passing.
    destruct (filter _ (groups labels)) as [|g gs] eqn:E; [reflexivity|].
    assert (Hg : In g (g :: gs)) by (left; reflexivity).
    rewrite <- E in Hg; apply filter_In in Hg; destruct Hg as [Hg He].
    destruct (Hall g Hg) as (eff & d & Hgrp).
    destruct (HitsFacts.efficiency_of_Ok _ _ _ _ _ Hgrp) as [Heff _].
    rewrite Heff in He; apply Qle_bool_iff in He.
    apply HitsFacts.group_efficiency_bounds in Hgrp; destruct Hgrp as [_ H1].
    exfalso; apply (Qlt_irrefl 1); eapply Qlt_le_trans; [exact Hthr|].
    eapply Qle_trans; eassumption. }
  assert (Hmat : matched thr event labels = []) by (unfold matched; rewrite Hpass; reflexivity).
  assert (Hrec : reconstructed thr event labels = [])
    by (unfold reconstructed; rewrite Hmat; reflexivity).
  cbn [H.reconstruction_efficiency_ H.ghost_rate_ H.clone_rate_].
  apply Z.gtb_lt in Hn; rewrite Hn, Hrec, Hmat, !Qmult_1_l.
  change (Np.len (@nil Z)) with 0; rewrite !Z.sub_0_r.
  split; [apply QuotFacts.quot_zero|]; split; [apply QuotFacts.quot_zero|reflexivity].
Qed.

Lemma threshold_above_one_witness :
  exists r,
    H.fit 2 Scenario.event Scenario.labels = Ok r /\
    (H.reconstruction_efficiency_ r == 0)%Q /\ (H.ghost_rate_ r == 1)%Q.
Proof.
  destruct (HitsFacts.hits_fit_total 2 Scenario.event Scenario.labels eq_refl) as [r Hr].
  exists r; split; [exact Hr|].
  destruct (threshold_above_one 2 Scenario.event Scenario.labels r) as (Hrec & _ & Hgh);
    [reflexivity|reflexivity|exact Hr|].
  split; [exact Hrec|].
  eapply Qeq_trans; [exact Hgh|vm_compute; reflexivity].
Defined.

(** ** Rates that are 0 or 1 *)

Module ExactFacts.

Lemma quot_eq_zero (a n : Z) :
  0 < n -> (inject_Z a / inject_Z n == 0)%Q <-> a = 0.
Proof.
  intros Hn; split.
  - intros Hq; apply (QuotFacts.quot_eq a 0 n Hn).
    rewrite Hq; symmetry; apply QuotFacts.quot_zero.
  - intros ->; apply QuotFacts.quot_zero.
Qed.

Lemma quot_eq_one (a n : Z) :
  0 < n -> (inject_Z a / inject_Z n == 1)%Q <-> a = n.
Proof.
  intros Hn; split.
  - intros Hq; apply (QuotFacts.quot_eq a n n Hn).
    rewrite Hq; symmetry; apply QuotFacts.quot_one; exact Hn.
  - intros ->; apply QuotFacts.quot_one; exact Hn.
Qed.

End ExactFacts.

(** X9: in the hit-matching scorer, with [n_tracks > 0], the clone rate
    is 0 exactly when no two groups that reach the threshold with a
    dominant TrackID other than [-1] have the same dominant TrackID. *)
Theorem clone_rate_zero (thr : Q) (event : Event) (labels : list Z) (r : H.t) :
  0 < n_tracks event -> H.fit thr event labels = Ok r ->
  (H.clone_rate_ r == 0)%Q <->
  NoDup (map (dominant_of (TrackID_values event) labels) (matched thr event labels)).
Proof.
  intros Hn Hr; apply HitsFacts.hits_fit_Ok in Hr; destruct Hr as [-> _].
  cbn [H.clone_rate_]; pose proof Hn as Hb; apply Z.gtb_lt in Hb; rewrite Hb.
  rewrite (ExactFacts.quot_eq_zero _ _ Hn), <- SizeFacts.unique_length_NoDup.
  unfold reconstructed, Np.len; rewrite length_map; lia.
Qed.

Lemma clone_rate_zero_witness :
  exists r,
    H.fit (1 # 2) Scenario.event Scenario.labels = Ok r /\ (H.clone_rate_ r == 0)%Q.
Proof.
  destruct (HitsFacts.hits_fit_total (1 # 2) Scenario.event Scenario.labels eq_refl)
    as [r Hr].
  exists r; split; [exact Hr|].
  apply (clone_rate_zero (1 # 2) Scenario.event Scenario.labels r);
    [reflexivity|exact Hr|].
  vm_compute; repeat constructor; intros [].
Defined.

(** X10: in the hit-matching scorer, with [n_tracks > 0], the ghost rate
    is 0 exactly when every group reaches the threshold and has a
    dominant TrackID other than [-1]. *)
Theorem ghost_rate_zero (thr : Q) (event : Event) (labels : list Z) (r : H.t) :
  0 < n_tracks event -> H.fit thr event labels = Ok r ->
  (H.ghost_rate_ r == 0)%Q <->
  (forall g, In g (groups labels) ->
     Qle_bool thr (efficiency_of (TrackID_values event) labels g) = true /\
     dominant_of (TrackID_values event) labels g <> -1).
Proof.
  intros Hn Hr; apply HitsFacts.hits_fit_Ok in Hr; destruct Hr as [-> _].
  cbn [H.ghost_rate_]; pose proof Hn as Hb; apply Z.gtb_lt in Hb; rewrite Hb.
  rewrite Qmult_1_l, (ExactFacts.quot_eq_zero _ _ Hn).
  pose proof (HitsFacts.matched_le_groups thr event labels) as Hle.
  unfold Np.len in *; split.
  - intros Hz g Hg.
    assert (Hincl : incl (groups labels) (matched thr event labels)).
    { apply NoDup_length_incl;
        [apply ThresholdFacts.matched_NoDup|lia|apply ThresholdFacts.matched_incl_groups]. }
    apply Hincl, HitsMore.matched_In in Hg; tauto.
  - intros Hall.
    assert (length (groups labels) <= length (matched thr event labels))%nat; [|lia].
    apply NoDup_incl_length; [apply ThresholdFacts.groups_NoDup|].
    intros g Hg; apply HitsMore.matched_In; destruct (Hall g Hg); auto.
Qed.

Lemma ghost_rate_zero_witness :
  exists r,
    H.fit (1 # 2) Scenario.split_event Scenario.split_labels = Ok r /\
    (H.ghost_rate_ r == 0)%Q.
Proof.
  destruct (HitsFacts.hits_fit_total (1 # 2) Scenario.split_event Scenario.split_labels
              eq_refl) as [r Hr].
  exists r; split; [exact Hr|].
  apply (ghost_rate_zero (1 # 2) Scenario.split_event Scenario.split_labels r);
    [reflexivity|exact Hr|].
  intros g Hg; vm_compute in Hg.
  destruct Hg as [<-|[<-|[]]]; split; try reflexivity; vm_compute; discriminate.
Defined.

(** X11: in the hit-matching scorer, with [n_tracks > 0], the
    reconstruction efficiency is 1 exactly when every true track is the
    dominant TrackID of some group that reaches the threshold. *)
Theorem reconstruction_efficiency_one (thr : Q) (event : Event) (labels : list Z)
    (r : H.t) :
  0 < n_tracks event -> H.fit thr event labels = Ok r ->
  (H.reconstruction_efficiency_ r == 1)%Q <->
  (forall v, In v (true_tracks event) ->
     exists g, In g (groups labels) /\
               Qle_bool thr (efficiency_of (TrackID_values event) labels g) = true /\
               dominant_of (TrackID_values event) labels g = v).
Proof.
  intros Hn Hr; apply HitsFacts.hits_fit_Ok in Hr; destruct Hr as [-> Hall].
  cbn [H.reconstruction_efficiency_]; pose proof Hn as Hb; apply Z.gtb_lt in Hb; rewrite Hb.
  rewrite Qmult_1_l, (ExactFacts.quot_eq_one _ _ Hn), <- ThresholdFacts.true_tracks_len.
  pose proof (ThresholdFacts.reconstructed_incl thr event labels Hall) as Hincl.
  assert (HndT : NoDup (true_tracks event))
    by apply NpFacts.sorted_NoDup, HitsFacts.true_tracks_sorted.
  assert (HndR : NoDup (reconstructed thr event labels)) by apply NpFacts.unique_NoDup.
  unfold Np.len; split.
  - intros Hlen v Hv.
    assert (Hback : incl (true_tracks event) (reconstructed thr event labels))
      by (apply NoDup_length_incl; [exact HndR|lia|exact Hincl]).
    apply Hback, HitsMore.reconstructed_In in Hv; tauto.
  - intros Hcover; f_equal; apply Nat.le_antisymm.
    + apply NoDup_incl_length; assumption.
    + apply NoDup_incl_length; [exact HndT|].
      intros v Hv; apply HitsMore.reconstructed_In; split; [|apply Hcover; exact Hv].
      unfold true_tracks in Hv; apply filter_In in Hv; destruct Hv as [_ Hl].
      unfold is_label in Hl; apply negb_true_iff, Z.eqb_neq in Hl; exact Hl.
Qed.

Lemma reconstruction_efficiency_one_witness :
  exists r,
    H.fit (1 # 2) Scenario.split_event Scenario.split_labels = Ok r /\
    (H.reconstruction_efficiency_ r == 1)%Q.
Proof.
  destruct (HitsFacts.hits_fit_total (1 # 2) Scenario.split_event Scenario.split_labels
              eq_refl) as [r Hr].
  exists r; split; [exact Hr|].
  apply (reconstruction_efficiency_one (1 # 2)
           Scenario.split_event Scenario.split_labels r); [reflexivity|exact Hr|].
  intros v Hv; vm_compute in Hv; destruct Hv as [<-|[]].
  exists 5; split; [left; reflexivity|split; reflexivity].
Defined.

(** ** Ghosts of the parameter-matching scorer *)

Module GhostFacts.

Import ParamSpec.

Lemma no_match_ghost (row : list bool) :
  (forall j, nth j row false = false) -> existsb (fun m : bool => m) row = false.
Proof.
  intros Hno; destruct (existsb (fun m : bool => m) row) eqn:E; [|reflexivity].
  apply existsb_exists in E; destruct E as (m & Hin & Hm); subst m.
  destruct (In_nth _ _ false Hin) as (j & _ & Hj); rewrite Hno in Hj; discriminate.
Qed.

(** Without a pairing, no group matches a true track: all are ghosts. *)
Lemma no_pairing_all_ghosts (rows : list (list bool)) :
  pairings rows 0 [] = [] -> ghosts rows = rows.
Proof.
  intros Hp; destruct (ParamFacts.pairings_spec rows 0 []) as (_ & _ & _ & Hgr).
  rewrite Hp in Hgr; unfold ghosts; apply PerfectFacts.filter_all; intros row Hrow.
  apply negb_true_iff, no_match_ghost; intros j.
  destruct (In_nth _ _ [] Hrow) as (k & _ & Hk).
  destruct (nth j row false) eqn:E; [|reflexivity].
  destruct (Hgr k j) as [[]|[(g' & _ & [])|(i & _ & [])]].
  unfold matches_at; rewrite Hk; exact E.
Qed.

(** Wider tolerances leave no more groups without a match. *)
Lemma ghosts_mono (dk db dk' db' : Q) (tps ps : list (Q * Q)) :
  (forall t p, P.close dk db t p = true -> P.close dk' db' t p = true) ->
  (length (ghosts (match_rows dk' db' tps ps))
   <= length (ghosts (match_rows dk db tps ps)))%nat.
Proof.
  intros Himp; induction ps as [|p ps IH]; cbn [match_rows map ghosts filter]; [lia|].
  fold (match_rows dk db tps ps); fold (match_rows dk' db' tps ps).
  fold (ghosts (match_rows dk db tps ps)); fold (ghosts (match_rows dk' db' tps ps)).
  destruct (existsb (fun m : bool => m) (match_row dk db tps p)) eqn:E.
  - assert (E' : existsb (fun m : bool => m) (match_row dk' db' tps p) = true).
    { apply existsb_exists in E; destruct E as (m & Hin & ->).
      unfold match_row in Hin; apply in_map_iff in Hin; destruct Hin as (t & Ht & Hin).
      apply existsb_exists; exists true; split; [|reflexivity].
      unfold match_row; apply in_map_iff; exists t; split; [apply Himp; exact Ht|exact Hin]. }
    rewrite E'; cbn [negb]; exact IH.
  - cbn [negb length].
    destruct (negb (existsb (fun m : bool => m) (match_row dk' db' tps p)));
      cbn [length]; lia.
Qed.

Lemma close_wider (dk db dk' db' : Q) (t p : Q * Q) :
  (dk <= dk')%Q -> (db <= db')%Q ->
  P.close dk db t p = true -> P.close dk' db' t p = true.
Proof.
  intros Hk Hb; unfold P.close; rewrite !andb_true_iff, !Qle_bool_iff.
  intros [H1 H2]; split; eapply Qle_trans; eassumption.
Qed.

End GhostFacts.

(** X12: in the parameter-matching scorer, with [n_tracks > 0], when the
    reconstruction efficiency is 0 no group matches any true track: the
    clone rate is 0 and the ghost rate is the number of groups over
    [n_tracks]. *)
Theorem no_reconstruction_all_ghosts (regression : list Q -> list Q -> result (Q * Q))
    (dk db : Q) (event : Event) (labels : list Z) (r : P.t) :
  0 < n_tracks event -> P.fit regression dk db event labels = Ok r ->
  (P.reconstruction_efficiency_ r == 0)%Q ->
  (P.clone_rate_ r == 0)%Q /\
  (P.ghost_rate_ r == inject_Z (Np.len (groups labels)) / inject_Z (n_tracks event))%Q.
Proof.
  intros Hn Hr; apply ParamFacts.param_fit_Ok in Hr.
  destruct Hr as (tps & ps & _ & _ & _ & Hlen & ->).
  pose proof Hn as Hb; apply Z.gtb_lt in Hb; rewrite Hb.
  cbn [P.reconstruction_efficiency_ P.ghost_rate_ P.clone_rate_].
  rewrite !Qmult_1_l, (ExactFacts.quot_eq_zero _ _ Hn); intros Hz.
  assert (Hp : pairings (match_rows dk db tps ps) 0 [] = []).
  { destruct (pairings (match_rows dk db tps ps) 0 []); [reflexivity|].
    rewrite NpFacts.len_cons in Hz; pose proof (NpFacts.len_nonneg l); lia. }
  rewrite (GhostFacts.no_pairing_all_ghosts _ Hp), Hp.
  assert (Hrows : Np.len (match_rows dk db tps ps) = Np.len (groups labels))
    by (rewrite <- Hlen; unfold match_rows; apply HitsFacts.len_map).
  rewrite Hrows, Hlen; change (Np.len (@nil (nat * nat))) with 0.
  rewrite Z.sub_0_r, Z.sub_diag; split; [apply QuotFacts.quot_zero|reflexivity].
Qed.

Lemma no_reconstruction_all_ghosts_witness :
  exists r,
    P.fit LeastSquares.fit (1 # 100) (1 # 100)
          Scenario.lines_event [5; 6; 5; 6; 5; 6] = Ok r /\
    (P.clone_rate_ r == 0)%Q.
Proof.
  destruct (ParamFacts.param_fit_total LeastSquares.fit (1 # 100) (1 # 100)
              Scenario.lines_event [5; 6; 5; 6; 5; 6] eq_refl
              (ParamFacts.least_squares_tracks Scenario.lines_event)
              (ParamFacts.least_squares_groups
                 Scenario.lines_event [5; 6; 5; 6; 5; 6] eq_refl)) as [r Hr].
  exists r; split; [exact Hr|].
  apply (no_reconstruction_all_ghosts LeastSquares.fit (1 # 100) (1 # 100)
           Scenario.lines_event [5; 6; 5; 6; 5; 6] r); [reflexivity|exact Hr|].
  vm_compute in Hr; injection Hr as <-; reflexivity.
Defined.

(** X13: in the parameter-matching scorer, widening the tolerances
    cannot raise the ghost rate. *)
Theorem tolerance_monotone (regression : list Q -> list Q -> result (Q * Q))
    (dk db dk' db' : Q) (event : Event) (labels : list Z) (r r' : P.t) :
  (dk <= dk')%Q -> (db <= db')%Q ->
  P.fit regression dk db event labels = Ok r ->
  P.fit regression dk' db' event labels = Ok r' ->
  (P.ghost_rate_ r' <= P.ghost_rate_ r)%Q.
Proof.
  intros Hk Hb Hr Hr'.
  apply ParamFacts.param_fit_Ok in Hr; destruct Hr as (tps & ps & Ht & Hp & _ & _ & ->).
  apply ParamFacts.param_fit_Ok in Hr'.
  destruct Hr' as (tps' & ps' & Ht' & Hp' & _ & _ & ->).
  assert (tps' = tps)
    by (apply (PerfectFacts.Forall2_functional
                 (fun g => P.line regression (hits_of_track event g)) (true_tracks event));
        assumption).
  assert (ps' = ps)
    by (apply (PerfectFacts.Forall2_functional
                 (fun g => P.line regression (hits_of_group event labels g)) (groups labels));
        assumption).
  subst tps' ps'.
  destruct (n_tracks event >? 0) eqn:Hn; [|apply Qle_refl].
  apply Z.gtb_lt in Hn; cbn [P.ghost_rate_]; rewrite !Qmult_1_l.
  apply QuotFacts.quot_le; [exact Hn|].
  unfold Np.len; apply inj_le, GhostFacts.ghosts_mono.
  intros t p; apply GhostFacts.close_wider; assumption.
Qed.

Lemma tolerance_monotone_witness :
  exists r r',
    P.fit LeastSquares.fit (1 # 100) (1 # 100)
          Scenario.lines_event [5; 6; 5; 6; 5; 6] = Ok r /\
    P.fit LeastSquares.fit 10 10 Scenario.lines_event [5; 6; 5; 6; 5; 6] = Ok r' /\
    (P.ghost_rate_ r' <= P.ghost_rate_ r)%Q.
Proof.
  destruct (ParamFacts.param_fit_total LeastSquares.fit (1 # 100) (1 # 100)
              Scenario.lines_event [5; 6; 5; 6; 5; 6] eq_refl
              (ParamFacts.least_squares_tracks Scenario.lines_event)
              (ParamFacts.least_squares_groups
                 Scenario.lines_event [5; 6; 5; 6; 5; 6] eq_refl)) as [r Hr].
  destruct (ParamFacts.param_fit_total LeastSquares.fit 10 10
              Scenario.lines_event [5; 6; 5; 6; 5; 6] eq_refl
              (ParamFacts.least_squares_tracks Scenario.lines_event)
              (ParamFacts.least_squares_groups
                 Scenario.lines_event [5; 6; 5; 6; 5; 6] eq_refl)) as [r' Hr'].
  exists r, r'; split; [exact Hr|]; split; [exact Hr'|].
  apply (tolerance_monotone LeastSquares.fit (1 # 100) (1 # 100) 10 10
           Scenario.lines_event [5; 6; 5; 6; 5; 6] r r');
    [vm_compute; discriminate|vm_compute; discriminate|exact Hr|exact Hr'].
Defined.

(** X14: [fit] adds no failure of its own to those of the selections
    and of the regression.  The hit-matching [fit] raises nothing but
    [IndexError], and only when the labels have another length than the
    event and some label is not [-1]: the maximum of the counts and the
    first dominant value never fail.  The parameter-matching [fit]
    raises either what the regression raised on a true track or a group,
    or [ValueError] when the labels have another length than the event
    and some label is not [-1]. *)
Theorem fit_fails_only_misaligned (regression : list Q -> list Q -> result (Q * Q))
    (thr dk db : Q) (event : Event) (labels : list Z) :
  (forall e, H.fit thr event labels = Raise e ->
     e = IndexError /\ length labels <> length event /\ groups labels <> []) /\
  (forall e, P.fit regression dk db event labels = Raise e ->
     (exists g, In g (true_tracks event) /\
                P.line regression (hits_of_track event g) = Raise e) \/
     (e = ValueError /\ length labels <> length event /\ groups labels <> []) \/
     (exists g, In g (groups labels) /\
                P.line regression (hits_of_group event labels g) = Raise e)).
Proof.
  split; intros e He.
  - destruct (Nat.eq_dec (length labels) (length event)) as [Hlen|Hlen].
    + destruct (HitsFacts.hits_fit_total thr event labels Hlen) as [r Hr]; congruence.
    + destruct (list_eq_dec Z.eq_dec (groups labels) []) as [Hg|Hg].
      * destruct (HitsFacts.hits_fit_no_group thr event labels Hg) as [r Hr]; congruence.
      * rewrite (HitsFacts.hits_fit_misaligned thr event labels Hlen Hg) in He.
        injection He as <-; auto.
  - apply ParamFacts.param_fit_Raise in He; exact He.
Qed.

Lemma fit_fails_only_misaligned_witness :
  length [5; 5] <> length Scenario.single_event /\ groups [5; 5] <> [].
Proof.
  destruct (fit_fails_only_misaligned LeastSquares.fit (1 # 2) (1 # 2) (1 # 2)
              Scenario.single_event [5; 5]) as [Hh _].
  destruct (Hh IndexError) as (_ & Hlen & Hg); [vm_compute; reflexivity|].
  split; assumption.
Defined.

(** ** The order of the hits *)

Module OrderFacts.

Import HitsSpec NpFacts.

Lemma mask_combine {A B : Type} (p : B -> bool) (a : list A) (b : list B) :
  Np.mask a (map p b) = map fst (filter (fun x => p (snd x)) (combine a b)).
Proof.
  revert b; induction a as [|h t IH]; intros [|k b]; cbn [Np.mask map combine filter];
    try reflexivity.
  cbn [snd]; destruct (p k); cbn [map fst]; rewrite IH; reflexivity.
Qed.

Lemma filter_perm {A : Type} (p : A -> bool) (l l' : list A) :
  Permutation l l' -> Permutation (filter p l) (filter p l').
Proof.
  induction 1 as [|x l l' _ IH|x x' l|l l' l'' _ IH1 _ IH2]; cbn [filter].
  - constructor.
  - destruct (p x); [constructor|]; exact IH.
  - destruct (p x), (p x'); try apply Permutation_refl; apply perm_swap.
  - eapply Permutation_trans; eassumption.
Qed.

Lemma count_perm (u : Z) (a b : list Z) :
  Permutation a b -> Np.count u a = Np.count u b.
Proof.
  induction 1 as [|x l l' _ IH|x x' l|l l' l'' _ IH1 _ IH2]; cbn [Np.count];
    [reflexivity|rewrite IH; reflexivity|lia|congruence].
Qed.

Lemma unique_perm (a b : list Z) : Permutation a b -> Np.unique a = Np.unique b.
Proof.
  intros Hp; apply SizeFacts.sorted_ext; try apply unique_sorted.
  intros x; rewrite !unique_In; split; apply Permutation_in;
    [exact Hp|apply Permutation_sym; exact Hp].
Qed.

Lemma unique_counts_perm (a b : list Z) :
  Permutation a b -> Np.unique_counts a = Np.unique_counts b.
Proof.
  intros Hp; unfold Np.unique_counts; rewrite (unique_perm a b Hp); f_equal.
  apply map_ext; intros u; apply count_perm; exact Hp.
Qed.

Lemma map_fst_combine {A B : Type} (a : list A) (b : list B) :
  length a = length b -> map fst (combine a b) = a.
Proof.
  revert b; induction a as [|h t IH]; intros [|k b] Hlen; cbn in *; try congruence.
  rewrite IH; [reflexivity|lia].
Qed.

Lemma map_snd_combine {A B : Type} (a : list A) (b : list B) :
  length a = length b -> map snd (combine a b) = b.
Proof.
  revert b; induction a as [|h t IH]; intros [|k b] Hlen; cbn in *; try congruence.
  rewrite IH; [reflexivity|lia].
Qed.

(** The group of a label depends on the hits, not on their order. *)
Lemma group_perm (tl labels tl' labels' : list Z) (g : Z) :
  length tl = length labels -> length tl' = length labels' ->
  Permutation (combine tl labels) (combine tl' labels') ->
  H.group tl' labels' g = H.group tl labels g.
Proof.
  intros Hlen Hlen' Hp; unfold H.group.
  rewrite !select_same by (rewrite length_map; assumption).
  cbn [bind].
  assert (Ht : Permutation (Np.mask tl (map (fun l => l =? g) labels))
                           (Np.mask tl' (map (fun l => l =? g) labels'))).
  { rewrite !mask_combine; apply Permutation_map, filter_perm; exact Hp. }
  rewrite <- (unique_counts_perm _ _ Ht).
  unfold Np.len; rewrite <- (Permutation_length Ht); reflexivity.
Qed.

Lemma loop_perm (tl labels tl' labels' ul : list Z) (accE : list Q) (accT : list Z) :
  length tl = length labels -> length tl' = length labels' ->
  Permutation (combine tl labels) (combine tl' labels') ->
  H.loop tl' labels' ul accE accT = H.loop tl labels ul accE accT.
Proof.
  intros Hlen Hlen' Hp; revert accE accT; induction ul as [|label rest IH];
    intros accE accT; cbn [H.loop]; [reflexivity|].
  destruct (negb (label =? -1)); [|apply IH].
  rewrite (group_perm tl labels tl' labels' label Hlen Hlen' Hp).
  destruct (H.group tl labels label) as [[eff d]|]; cbn [bind]; [apply IH|reflexivity].
Qed.

End OrderFacts.

(** X15: the hit-matching [fit] does not depend on the order of the
    hits: two aligned inputs whose (TrackID, label) pairs are the same up
    to their order give the same result. *)
Theorem hits_order_irrelevant (thr : Q) (event event' : Event) (labels labels' : list Z) :
  length labels = length event -> length labels' = length event' ->
  Permutation (combine (TrackID_values event) labels)
              (combine (TrackID_values event') labels') ->
  H.fit thr event' labels' = H.fit thr event labels.
Proof.
  intros Hlen Hlen' Hp.
  assert (Hl : length (TrackID_values event) = length labels)
    by (unfold TrackID_values; rewrite length_map; congruence).
  assert (Hl' : length (TrackID_values event') = length labels')
    by (unfold TrackID_values; rewrite length_map; congruence).
  assert (Hids : Permutation (TrackID_values event) (TrackID_values event')).
  { rewrite <- (OrderFacts.map_fst_combine _ _ Hl), <- (OrderFacts.map_fst_combine _ _ Hl').
    apply Permutation_map; exact Hp. }
  assert (Hlab : Permutation labels labels').
  { rewrite <- (OrderFacts.map_snd_combine _ _ Hl), <- (OrderFacts.map_snd_combine _ _ Hl').
    apply Permutation_map; exact Hp. }
  unfold H.fit, n_tracks.
  rewrite <- (OrderFacts.unique_perm _ _ Hlab), <- (OrderFacts.unique_perm _ _ Hids).
  rewrite (OrderFacts.loop_perm _ _ _ _ _ _ _ Hl Hl' Hp); reflexivity.
Qed.

Lemma hits_order_irrelevant_witness :
  H.fit (1 # 2) (Scenario.hits [-1; 1; 1; 0; 0; 0]) [6; 6; 5; 5; 5; 5]
  = H.fit (1 # 2) Scenario.event Scenario.labels.
Proof.
  apply hits_order_irrelevant; [reflexivity|reflexivity|].
  apply Permutation_rev.
Defined.

(** X16: with [n_tracks > 0], each of the three rates of each scorer lies
    between 0 and the number of groups over [n_tracks]; the ghost and
    clone rates can pass 1 only when there are more groups than true
    tracks. *)
Theorem rates_at_most_groups (regression : list Q -> list Q -> result (Q * Q))
    (thr dk db : Q) (event : Event) (labels : list Z) :
  0 < n_tracks event ->
  let top := (inject_Z (Np.len (groups labels)) / inject_Z (n_tracks event))%Q in
  (forall r, H.fit thr event labels = Ok r ->
     (0 <= H.reconstruction_efficiency_ r <= top /\ 0 <= H.ghost_rate_ r <= top /\
      0 <= H.clone_rate_ r <= top)%Q) /\
  (forall r, P.fit regression dk db event labels = Ok r ->
     (0 <= P.reconstruction_efficiency_ r <= top /\ 0 <= P.ghost_rate_ r <= top /\
      0 <= P.clone_rate_ r <= top)%Q).
Proof.
  intros Hn top; pose proof Hn as Hb; apply Z.gtb_lt in Hb; split; intros r Hr.
  - apply HitsFacts.hits_fit_Ok in Hr; destruct Hr as [-> _].
    cbn [H.reconstruction_efficiency_ H.ghost_rate_ H.clone_rate_].
    pose proof (HitsFacts.matched_le_groups thr event labels) as H1.
    pose proof (HitsFacts.reconstructed_le_matched thr event labels) as H2.
    pose proof (NpFacts.len_nonneg (reconstructed thr event labels)) as H3.
    rewrite Hb, !Qmult_1_l; unfold top.
    repeat split; try (apply RateFacts.quot_nonneg; lia);
      apply QuotFacts.quot_le; lia.
  - apply ParamFacts.param_fit_Ok in Hr.
    destruct Hr as (tps & ps & _ & _ & _ & Hlen & ->).
    pose proof (ParamFacts.pairings_ghosts_le (match_rows dk db tps ps) 0 []) as H1.
    unfold match_rows at 3 in H1; rewrite length_map in H1.
    rewrite Hb; cbn [P.reconstruction_efficiency_ P.ghost_rate_ P.clone_rate_].
    rewrite !Qmult_1_l; unfold top; rewrite <- Hlen; unfold Np.len.
    repeat split; try (apply RateFacts.quot_nonneg; lia);
      apply QuotFacts.quot_le; lia.
Qed.

Lemma rates_at_most_groups_witness :
  exists r,
    H.fit (1 # 2) Scenario.split_event Scenario.split_labels = Ok r /\
    (0 <= H.clone_rate_ r <= 2)%Q.
Proof.
  assert (Hn : 0 < n_tracks Scenario.split_event) by reflexivity.
  destruct (rates_at_most_groups LeastSquares.fit (1 # 2) (1 # 2) (1 # 2)
              Scenario.split_event Scenario.split_labels Hn) as [Hh _].
  destruct (HitsFacts.hits_fit_total (1 # 2) Scenario.split_event Scenario.split_labels
              eq_refl) as [r Hr].
  exists r; split; [exact Hr|].
  destruct (Hh r Hr) as (_ & _ & H0 & Htop); split; [exact H0|].
  eapply Qle_trans; [exact Htop|vm_compute; discriminate].
Defined.
